(** * net/ipv6/output_core.c: fragment identifiers, the extension-header
      walk and output finalisation

    A shallow embedding of the functions of [net/ipv6/output_core.c]:
    [__ipv6_select_ident], [ipv6_proxy_select_ident], [ipv6_select_ident],
    [ip6_find_1stfragopt], [__ip6_local_out] and [ip6_local_out].

    C integers are values of [Z] with the conversions of the C code written
    out ([u32], [u16], [int_of]); packet bytes are [Byte.byte]; a [struct
    sk_buff] is a record holding the linear buffer and the offsets into it.
    Functions of the kernel that live outside this file (the random source,
    siphash, the identifier table, the TLV search, the netfilter hook) are
    fields of the class [kernel].  Functions are run one call after the
    other; [caller_step] takes [__ipv6_select_ident] one statement at a
    time, for callers that overlap. *)

From Stdlib Require Import ZArith List Bool Lia.
From coqutil Require Import Byte.
Import ListNotations.

Local Open Scope Z_scope.

(** ** C integer conversions *)

(** Conversion to an unsigned type of [bits] bits. *)
Definition wrap (bits x : Z) : Z := x mod 2 ^ bits.

Definition u16 (x : Z) : Z := wrap 16 x.
Definition u32 (x : Z) : Z := wrap 32 x.

(** Conversion to [int] (32 bits, two's complement, as gcc defines it). *)
Definition int_of (x : Z) : Z :=
  let r := u32 x in if r <? 2 ^ 31 then r else r - 2 ^ 32.

Definition INT_MAX : Z := 2 ^ 31 - 1.
Definition INT_MIN : Z := - 2 ^ 31.

(** [htons] and [htonl]: a [__be16] or [__be32] is modelled by its bytes in
    memory, most significant first; the argument is first converted to
    [u16] or [u32] as the prototypes demand. *)
Definition htons (x : Z) : list byte :=
  let v := u16 x in [byte.of_Z (Z.shiftr v 8); byte.of_Z v].

Definition htonl (x : Z) : list byte :=
  let v := u32 x in
  [byte.of_Z (Z.shiftr v 24); byte.of_Z (Z.shiftr v 16);
   byte.of_Z (Z.shiftr v 8); byte.of_Z v].

(** Big-endian value of a byte string ([ntohs], [ntohl]). *)
Fixpoint be_value_acc (acc : Z) (bs : list byte) : Z :=
  match bs with
  | [] => acc
  | b :: bs' => be_value_acc (acc * 256 + byte.unsigned b) bs'
  end.

Definition ntoh (bs : list byte) : Z := be_value_acc 0 bs.

(** ** Constants of the kernel headers *)

(** Modelled from the spec: [IPV6_MAXPLEN] (include/net/ipv6.h, not under
    src/) is "the protocol's maximum payload representable length", the
    largest value of the 16-bit payload-length field of IPv6. *)
Definition IPV6_MAXPLEN : Z := 65535.

(** Modelled from the spec: the "fixed-size base header" of IPv6,
    [struct ipv6hdr] (include/uapi/linux/ipv6.h, not under src/).  The
    numbers are those of the protocol: the header has 40 bytes, its
    payload-length field is at byte 4, its "next header" field at byte 6
    and the source address, which the destination address follows, at
    byte 8; an address has 16 bytes. *)
Definition sizeof_ipv6hdr : Z := 40.
Definition offsetof_payload_len : Z := 4.
Definition offsetof_nexthdr : Z := 6.
Definition offsetof_saddr : Z := 8.
Definition sizeof_in6_addr : Z := 16.

(** Modelled from the spec: an extension header starts with its "next
    header" type tag followed by "a length field expressed in an 8-byte unit
    (plus a fixed 8-byte minimum)"; [struct ipv6_opt_hdr] is that two-byte
    prefix. *)
Definition sizeof_ipv6_opt_hdr : Z := 2.

(** Modelled from the spec: the header types the walk distinguishes,
    "{hop-by-hop, routing, destination-options, other}", and the "home
    address" option type (include/net/ipv6.h and include/uapi/linux/in6.h,
    not under src/), with the numbers the protocol assigns to them. *)
Definition NEXTHDR_HOP : Z := 0.
Definition NEXTHDR_ROUTING : Z := 43.
Definition NEXTHDR_DEST : Z := 60.
Definition IPV6_TLV_HAO : Z := 201.

(** Modelled from the spec: the errno behind the "negative/failure result"
    of the walk, the "protocol/ethertype tag" of IPv6 and the arguments
    that name the hook ("protocol family, hook point identifier"); all are
    declared in headers that are not under src/. *)
Definition EINVAL : Z := 22.
Definition ETH_P_IPV6 : Z := 34525.
Definition NFPROTO_IPV6 : Z := 10.
Definition NF_INET_LOCAL_OUT : Z := 3.

(** ** Packets *)

(** The part of [struct sk_buff] this file touches.  [skb_head] is the
    linear buffer; [skb_data], [skb_tail] and [skb_network_header] are
    positions in it. *)
Record sk_buff : Type := mk_skb {
  skb_head : list byte;
  skb_data : Z;
  skb_tail : Z;
  skb_network_header : Z;
  skb_len : Z;                  (* skb->len *)
  skb_protocol : list byte;     (* skb->protocol, a __be16 *)
  skb_nhoff : Z;                (* IP6CB(skb)->nhoff *)
  skb_ip6_frag_id : list byte   (* skb_shinfo(skb)->ip6_frag_id, a __be32 *)
}.

(** The byte at position [pos] of the linear buffer. *)
Definition buf_byte (skb : sk_buff) (pos : Z) : byte :=
  nth (Z.to_nat pos) (skb_head skb) Byte.x00.

(** A [u8] load at [skb_network_header(skb) + pos]. *)
Definition nh_u8 (skb : sk_buff) (pos : Z) : Z :=
  byte.unsigned (buf_byte skb (skb_network_header skb + pos)).

(** [skb_tail_pointer(skb) - skb_network_header(skb)], stored in an
    [unsigned int]. *)
Definition packet_len (skb : sk_buff) : Z :=
  u32 (skb_tail skb - skb_network_header skb).

(** [skb_network_offset]: [skb_network_header(skb) - skb->data], an [int]. *)
Definition skb_network_offset (skb : sk_buff) : Z :=
  int_of (skb_network_header skb - skb_data skb).

(** Storing the bytes [bs] at position [pos] of a buffer.  Bytes that would
    fall outside the buffer are dropped: the C code never stores there on a
    packet that holds its base header. *)
Fixpoint store_at (pos : nat) (bs buf : list byte) : list byte :=
  match pos, buf with
  | _, [] => []
  | O, b :: buf' =>
      match bs with
      | [] => b :: buf'
      | x :: bs' => x :: store_at O bs' buf'
      end
  | S pos', b :: buf' => b :: store_at pos' bs buf'
  end.

(** The bytes [pos, pos + n) of a buffer. *)
Definition slice (pos n : nat) (buf : list byte) : list byte :=
  firstn n (skipn pos buf).

(** ** The kernel around this file *)

(** [siphash_key_t], two 64-bit words, as the 16 bytes it occupies. *)
Definition siphash_key_t : Type := list byte.
Definition sizeof_siphash_key_t : Z := 16.

Record in6_addr : Type := mk_addr { s6_addr : list byte }.

(** Configuration and functions that are defined elsewhere in the kernel.
    [entropy] is the state of the random source and [idents] the state of
    the shared identifier table; both are threaded through the calls. *)
Class kernel : Type := {
  BITS_PER_LONG : Z;                          (* width of size_t *)
  BITS_PER_LONG_ge : 32 <= BITS_PER_LONG;
  CONFIG_IPV6_MIP6 : bool;
  ipv6_find_tlv : sk_buff -> Z -> Z -> Z;
  entropy : Type;
  get_random_bytes : entropy -> Z -> list byte * entropy;
  siphash : list byte -> Z -> siphash_key_t -> Z;
  idents : Type;
  ip_idents_reserve : idents -> Z -> Z -> Z * idents;
  nf_hook : Z -> Z -> sk_buff -> Z;
  dst_output : sk_buff -> Z
}.

(** [struct net]: only [net->ipv4.ip_id_key] is used. *)
Record net : Type := mk_net { ip_id_key : siphash_key_t }.

(** Modelled from the spec: [siphash_key_is_zero] (include/linux/siphash.h,
    not under src/) tests whether "the stored seed is all-zero". *)
Definition siphash_key_is_zero (k : siphash_key_t) : bool :=
  forallb (fun b => byte.unsigned b =? 0) k.

(** Modelled from the spec: [skb_header_pointer] (include/linux/skbuff.h,
    not under src/) "reads a fixed-size region ...; if the packet's captured
    bytes do not cover that region, the read fails cleanly".  The captured
    bytes are those of the linear buffer up to the tail (the model has no
    paged fragments); [offset] is relative to [skb->data]. *)
Definition skb_header_pointer (skb : sk_buff) (offset len : Z)
  : option (list byte) :=
  if (0 <=? skb_data skb + offset)
     && (skb_data skb + offset + len <=? skb_tail skb)
     && (skb_tail skb <=? Z.of_nat (length (skb_head skb)))
  then Some (slice (Z.to_nat (skb_data skb + offset)) (Z.to_nat len)
                   (skb_head skb))
  else None.

Section Kernel.

Context {K : kernel}.

(** Conversion to [size_t]. *)
Definition size_t_of (x : Z) : Z := wrap BITS_PER_LONG x.

(** ** The extension-header walk: [ip6_find_1stfragopt] *)

(** The local variables of the walk.  [nexthdr] is the position, relative
    to the network header, of the byte that [*nexthdr] points at. *)
Record walk_state : Type := mk_walk {
  offset : Z;
  nexthdr : Z;
  found_rhdr : bool
}.

(** The [return] statement that ends the walk. *)
Inductive walk_exit : Type :=
| found_at (off : Z)        (* "return offset;", lines 102 and 105 *)
| einval_opt_hdr            (* "return -EINVAL;", line 109 *)
| einval_maxplen            (* "return -EINVAL;", line 115 *)
| einval_packet_len.        (* "return -EINVAL;", line 120 *)

(** The two error kinds of the specification. *)
Inductive walk_error : Type := MalformedChain | LengthOverflow.

Definition error_kind (e : walk_exit) : option walk_error :=
  match e with
  | found_at _ => None
  | einval_opt_hdr => Some MalformedChain
  | einval_maxplen => Some LengthOverflow
  | einval_packet_len => Some MalformedChain
  end.

(** The [int] the C function returns. *)
Definition exit_code (e : walk_exit) : Z :=
  match e with
  | found_at off => int_of off
  | _ => - EINVAL
  end.

(** [ipv6_optlen(p)]: [(((p)->hdrlen + 1) << 3)], for the header at
    [offset]; [hdrlen] is the second byte of [struct ipv6_opt_hdr]. *)
Definition ipv6_optlen (skb : sk_buff) (offset : Z) : Z :=
  Z.shiftl (nh_u8 skb (offset + 1) + 1) 3.

(** The [switch] on [**nexthdr]: either [break], with the new value of
    [found_rhdr], or [return offset]. *)
Inductive switch_result : Type :=
| sw_break (rhdr : bool)
| sw_return (off : Z).

Definition switch_nexthdr (skb : sk_buff) (st : walk_state) : switch_result :=
  let t := nh_u8 skb (nexthdr st) in
  if t =? NEXTHDR_HOP then sw_break (found_rhdr st)
  else if t =? NEXTHDR_ROUTING then sw_break true
  else if t =? NEXTHDR_DEST then
    if CONFIG_IPV6_MIP6
       && (0 <=? ipv6_find_tlv skb (int_of (offset st)) IPV6_TLV_HAO)
    then sw_break (found_rhdr st)
    else if found_rhdr st then sw_return (offset st)
    else sw_break (found_rhdr st)
  else sw_return (offset st).

Inductive outcome : Type :=
| Return (e : walk_exit)
| Continue (st : walk_state).

(** One execution of the body of the [while] loop (lines 86 to 117). *)
Definition loop_body (skb : sk_buff) (st : walk_state) : outcome :=
  match switch_nexthdr skb st with
  | sw_return off => Return (found_at off)
  | sw_break rhdr =>
      if size_t_of (offset st + sizeof_ipv6_opt_hdr) >? packet_len skb
      then Return einval_opt_hdr
      else
        let len := u32 (ipv6_optlen skb (offset st)) in
        if u32 (len + offset st) >=? IPV6_MAXPLEN
        then Return einval_maxplen
        else Continue {| offset := u32 (offset st + len);
                         nexthdr := offset st;
                         found_rhdr := rhdr |}
  end.

(** Lines 79 to 83. *)
Definition walk_init : walk_state :=
  {| offset := sizeof_ipv6hdr;
     nexthdr := offsetof_nexthdr;
     found_rhdr := false |}.

(** The [while (offset <= packet_len)] loop and the [return -EINVAL] after
    it, run for at most [fuel] tests of the loop condition.  The result is
    the [return] statement reached and the final value of [*nexthdr]. *)
Fixpoint walk_loop (fuel : nat) (skb : sk_buff) (st : walk_state)
  : option (walk_exit * Z) :=
  match fuel with
  | O => None
  | S fuel' =>
      if offset st <=? packet_len skb then
        match loop_body skb st with
        | Return e => Some (e, nexthdr st)
        | Continue st' => walk_loop fuel' skb st'
        end
      else Some (einval_packet_len, nexthdr st)
  end.

(** Enough fuel for any packet: the offset grows by at least 8 in every
    iteration and the loop is left once it is above [packet_len]. *)
Definition walk_fuel (skb : sk_buff) : nat :=
  S (Z.to_nat (packet_len skb / 8)).

(** [ip6_find_1stfragopt], with the [return] statement it left through. *)
Definition ip6_find_1stfragopt_traced (skb : sk_buff)
  : option (walk_exit * Z) :=
  walk_loop (walk_fuel skb) skb walk_init.

(** [ip6_find_1stfragopt]: the returned [int] and the final [*nexthdr]. *)
Definition ip6_find_1stfragopt (skb : sk_buff) : option (Z * Z) :=
  match ip6_find_1stfragopt_traced skb with
  | Some (e, nh) => Some (exit_code e, nh)
  | None => None
  end.

(** The states the walk passes through at the head of a loop iteration. *)
Inductive reachable (skb : sk_buff) : walk_state -> Prop :=
| reach_init : reachable skb walk_init
| reach_step st st' :
    reachable skb st ->
    offset st <= packet_len skb ->
    loop_body skb st = Continue st' ->
    reachable skb st'.

(** The state at the head of the iteration that follows [n] continuing
    iterations, if the walk gets that far. *)
Fixpoint walk_state_after (n : nat) (skb : sk_buff) : option walk_state :=
  match n with
  | O => Some walk_init
  | S n' =>
      match walk_state_after n' skb with
      | Some st =>
          if offset st <=? packet_len skb then
            match loop_body skb st with
            | Continue st' => Some st'
            | Return _ => None
            end
          else None
      | None => None
      end
  end.

(** Two packets with the same captured bytes after the network header. *)
Definition same_captured (skb skb' : sk_buff) : Prop :=
  packet_len skb = packet_len skb'
  /\ forall pos, 0 <= pos < packet_len skb -> nh_u8 skb pos = nh_u8 skb' pos.

(** The invariant of the walk: the offset is a multiple of 8 between the
    end of the base header and [IPV6_MAXPLEN]. *)
Definition walk_inv (st : walk_state) : Prop :=
  sizeof_ipv6hdr <= offset st < IPV6_MAXPLEN /\ offset st mod 8 = 0.

(** ** Fragment identifiers *)

(** The random source and the identifier table. *)
Record world : Type := mk_world {
  w_entropy : entropy;
  w_idents : idents
}.

(** Lines 24 to 26: the lazy fill of [net->ipv4.ip_id_key], as one caller
    does it when no other caller runs between its test and its store.  The
    statements taken one at a time, for callers that overlap, are
    [caller_step] below. *)
Definition ip_id_key_fill (n : net) (ent : entropy) : net * entropy :=
  if siphash_key_is_zero (ip_id_key n) then
    let '(bs, ent') := get_random_bytes ent sizeof_siphash_key_t in
    ({| ip_id_key := bs |}, ent')
  else (n, ent).

(** Line 28: the hash of [combined], which holds [dst] then [src]. *)
Definition ident_hash (n : net) (dst src : in6_addr) : Z :=
  let combined := s6_addr dst ++ s6_addr src in
  u32 (siphash combined (2 * sizeof_in6_addr) (ip_id_key n)).

(** Lines 35 and 36: [if (!id) id = 1 << 31;]. *)
Definition ident_nonzero (id : Z) : Z :=
  if id =? 0 then u32 (Z.shiftl 1 31) else id.

(** The value line 34 gets back from [ip_idents_reserve]. *)
Definition reserved_id (n : net) (w : world) (dst src : in6_addr) : Z :=
  let n' := fst (ip_id_key_fill n (w_entropy w)) in
  fst (ip_idents_reserve (w_idents w) (ident_hash n' dst src) 1).

Definition __ipv6_select_ident (n : net) (w : world) (dst src : in6_addr)
  : Z * net * world :=
  let '(n', ent') := ip_id_key_fill n (w_entropy w) in
  let hash := ident_hash n' dst src in
  let '(id, ids') := ip_idents_reserve (w_idents w) hash 1 in
  (ident_nonzero id, n', {| w_entropy := ent'; w_idents := ids' |}).

Definition set_ip6_frag_id (skb : sk_buff) (v : list byte) : sk_buff :=
  {| skb_head := skb_head skb; skb_data := skb_data skb;
     skb_tail := skb_tail skb;
     skb_network_header := skb_network_header skb;
     skb_len := skb_len skb; skb_protocol := skb_protocol skb;
     skb_nhoff := skb_nhoff skb; skb_ip6_frag_id := v |}.

(** Position in the linear buffer of the region the proxy path reads:
    [skb->data + (skb_network_offset(skb) + offsetof(struct ipv6hdr,
    saddr))], the offset being passed as an [int]. *)
Definition proxy_addrs_pos (skb : sk_buff) : Z :=
  skb_data skb + int_of (skb_network_offset skb + offsetof_saddr).

Definition ipv6_proxy_select_ident (n : net) (w : world) (skb : sk_buff)
  : net * world * sk_buff :=
  match skb_header_pointer skb
          (int_of (skb_network_offset skb + offsetof_saddr))
          (2 * sizeof_in6_addr) with
  | None => (n, w, skb)
  | Some addrs =>
      let addrs0 := {| s6_addr := firstn (Z.to_nat sizeof_in6_addr) addrs |} in
      let addrs1 := {| s6_addr := skipn (Z.to_nat sizeof_in6_addr) addrs |} in
      let '(id, n', w') := __ipv6_select_ident n w addrs1 addrs0 in
      (n', w', set_ip6_frag_id skb (htonl id))
  end.

Record frag_hdr : Type := mk_frag_hdr {
  fh_nexthdr : Z;
  fh_frag_off : list byte;
  identification : list byte     (* a __be32 *)
}.

Record rt6_info : Type := mk_rt6 {
  rt6i_dst : in6_addr;
  rt6i_src : in6_addr
}.

Definition ipv6_select_ident (n : net) (w : world) (fhdr : frag_hdr)
    (rt : rt6_info) : net * world * frag_hdr :=
  let '(id, n', w') := __ipv6_select_ident n w (rt6i_dst rt) (rt6i_src rt) in
  (n', w', {| fh_nexthdr := fh_nexthdr fhdr; fh_frag_off := fh_frag_off fhdr;
              identification := htonl id |}).

(** A sequence of identifier generations on one namespace. *)
Fixpoint select_idents (n : net) (w : world)
    (calls : list (in6_addr * in6_addr)) : list Z * net * world :=
  match calls with
  | [] => ([], n, w)
  | (dst, src) :: calls' =>
      let '(id, n', w') := __ipv6_select_ident n w dst src in
      let '(ids, n'', w'') := select_idents n' w' calls' in
      (id :: ids, n'', w'')
  end.

(** *** Callers that overlap

    The comment at line 23 says that the lazy fill is not safe: nothing
    keeps a second caller from running between the test of line 24 and the
    store of lines 25 and 26.  Here [__ipv6_select_ident] is taken one
    statement at a time; a schedule says which caller takes the next
    step. *)

(** Where a caller stands in [__ipv6_select_ident]. *)
Inductive caller_pc : Type :=
| at_test                   (* before the test of line 24 *)
| at_fill                   (* the test was true: before line 25 *)
| at_hash                   (* before line 28 *)
| at_reserve (hash : Z)     (* before line 34 *)
| returned (id : Z).        (* after line 38 *)

Record caller : Type := mk_caller {
  c_dst : in6_addr;
  c_src : in6_addr;
  c_pc : caller_pc
}.

Definition set_pc (c : caller) (pc : caller_pc) : caller :=
  {| c_dst := c_dst c; c_src := c_src c; c_pc := pc |}.

(** One statement of one caller, on the shared namespace, random source
    and identifier table. *)
Definition caller_step (c : caller) (n : net) (w : world)
  : caller * net * world :=
  match c_pc c with
  | at_test =>
      (set_pc c (if siphash_key_is_zero (ip_id_key n)
                 then at_fill else at_hash), n, w)
  | at_fill =>
      let '(bs, ent') :=
        get_random_bytes (w_entropy w) sizeof_siphash_key_t in
      (set_pc c at_hash, {| ip_id_key := bs |},
       {| w_entropy := ent'; w_idents := w_idents w |})
  | at_hash =>
      (set_pc c (at_reserve (ident_hash n (c_dst c) (c_src c))), n, w)
  | at_reserve hash =>
      let '(id, ids') := ip_idents_reserve (w_idents w) hash 1 in
      (set_pc c (returned (ident_nonzero id)), n,
       {| w_entropy := w_entropy w; w_idents := ids' |})
  | returned _ => (c, n, w)
  end.

(** The caller with index [i] takes a step. *)
Fixpoint step_at (i : nat) (cs : list caller) (n : net) (w : world)
  : list caller * net * world :=
  match cs, i with
  | [], _ => ([], n, w)
  | c :: cs', O =>
      let '(c', n', w') := caller_step c n w in (c' :: cs', n', w')
  | c :: cs', S i' =>
      let '(cs'', n', w') := step_at i' cs' n w in (c :: cs'', n', w')
  end.

Fixpoint run_schedule (sched : list nat) (cs : list caller) (n : net)
    (w : world) : list caller * net * world :=
  match sched with
  | [] => (cs, n, w)
  | i :: sched' =>
      let '(cs', n', w') := step_at i cs n w in
      run_schedule sched' cs' n' w'
  end.

(** Callers that have not started, one per call. *)
Definition fresh_callers (calls : list (in6_addr * in6_addr))
  : list caller :=
  map (fun call => {| c_dst := fst call; c_src := snd call;
                      c_pc := at_test |}) calls.

(** The same callers after they have returned the identifiers [ids]. *)
Definition returned_callers (calls : list (in6_addr * in6_addr))
    (ids : list Z) : list caller :=
  map (fun ci => {| c_dst := fst (fst ci); c_src := snd (fst ci);
                    c_pc := returned (snd ci) |}) (combine calls ids).

(** Calls that do not overlap: caller [first] takes its four steps, then
    caller [first + 1], and so on for [count] callers.  Four steps take a
    caller from the test to the return on either branch of the test. *)
Definition serial_schedule (first count : nat) : list nat :=
  flat_map (fun i => repeat i 4) (seq first count).

(** The test of [skb_header_pointer] for the region the proxy path reads:
    the two addresses lie inside the captured bytes. *)
Definition proxy_addrs_captured (skb : sk_buff) : Prop :=
  0 <= proxy_addrs_pos skb
  /\ proxy_addrs_pos skb + 2 * sizeof_in6_addr <= skb_tail skb
  /\ skb_tail skb <= Z.of_nat (length (skb_head skb)).

(** ** Output finalisation *)

(** Lines 128 to 130: the [int len] that is handed to [htons]. *)
Definition local_out_len (skb : sk_buff) : Z :=
  let len := int_of (size_t_of (skb_len skb - sizeof_ipv6hdr)) in
  if len >? IPV6_MAXPLEN then 0 else len.

(** Lines 128 to 134: the packet that is handed to the netfilter hook. *)
Definition local_out_fill (skb : sk_buff) : sk_buff :=
  {| skb_head :=
       store_at (Z.to_nat (skb_network_header skb + offsetof_payload_len))
                (htons (local_out_len skb)) (skb_head skb);
     skb_data := skb_data skb;
     skb_tail := skb_tail skb;
     skb_network_header := skb_network_header skb;
     skb_len := skb_len skb;
     skb_protocol := htons ETH_P_IPV6;
     skb_nhoff := offsetof_nexthdr;
     skb_ip6_frag_id := skb_ip6_frag_id skb |}.

Definition __ip6_local_out (skb : sk_buff) : Z * sk_buff :=
  let skb' := local_out_fill skb in
  (nf_hook NFPROTO_IPV6 NF_INET_LOCAL_OUT skb', skb').

Definition ip6_local_out (skb : sk_buff) : Z * sk_buff :=
  let '(err, skb') := __ip6_local_out skb in
  if err =? 1 then (dst_output skb', skb') else (err, skb').

(** The payload-length field of the base header, as bytes. *)
Definition payload_len_field (skb : sk_buff) : list byte :=
  slice (Z.to_nat (skb_network_header skb + offsetof_payload_len)) 2
        (skb_head skb).

End Kernel.

(** The source and destination address of the base header, read where the
    proxy path reads them. *)
Definition pkt_saddr (skb : sk_buff) : in6_addr :=
  {| s6_addr := slice (Z.to_nat (proxy_addrs_pos skb))
                      (Z.to_nat sizeof_in6_addr) (skb_head skb) |}.

Definition pkt_daddr (skb : sk_buff) : in6_addr :=
  {| s6_addr := slice (Z.to_nat (proxy_addrs_pos skb + sizeof_in6_addr))
                      (Z.to_nat sizeof_in6_addr) (skb_head skb) |}.

(** The positions, relative to the network header, that the walk may read:
    the "next header" byte of the base header and what follows the base
    header. *)
Definition walk_reads (pos : Z) : Prop :=
  pos = offsetof_nexthdr \/ sizeof_ipv6hdr <= pos.

(** ** Two concrete kernels and some packets *)

(** Modelled from the spec: an identifier table as the spec's
    IdentifierAllocator describes it, "maps the hash to a bucket (e.g., by
    reducing modulo the table size), atomically adds [count] to that
    bucket's counter, and returns the counter's previous value".  The table
    is a list of counters. *)
Definition table_reserve (tbl : list Z) (hash segs : Z) : Z * list Z :=
  let i := Z.to_nat (hash mod Z.of_nat (length tbl)) in
  let old := nth i tbl 0 in
  (old, firstn i tbl ++ u32 (old + segs) :: skipn (S i) tbl).

(** A stand-in for siphash: the byte sum of message and key. *)
Definition toy_hash (msg : list byte) (len : Z) (k : siphash_key_t) : Z :=
  fold_left (fun acc b => acc + byte.unsigned b) (msg ++ k) len.

(** A random source that hands out the bytes of a prepared list. *)
Definition tape_random (tape : list byte) (n : Z) : list byte * list byte :=
  (firstn (Z.to_nat n) tape, skipn (Z.to_nat n) tape).

(** A 32-bit kernel built without [CONFIG_IPV6_MIP6]. *)
Definition kernel32 : kernel :=
  {| BITS_PER_LONG := 32;
     BITS_PER_LONG_ge := Z.le_refl 32;
     CONFIG_IPV6_MIP6 := false;
     ipv6_find_tlv := fun _ _ _ => - 2;
     entropy := list byte;
     get_random_bytes := tape_random;
     siphash := toy_hash;
     idents := list Z;
     ip_idents_reserve := table_reserve;
     nf_hook := fun _ _ _ => 1;
     dst_output := fun _ => 0 |}.

(** A 64-bit kernel built with [CONFIG_IPV6_MIP6]; its TLV search only
    looks at the first option of the header. *)
Definition kernel64_mip6 : kernel :=
  {| BITS_PER_LONG := 64;
     BITS_PER_LONG_ge := Zle_bool_imp_le 32 64 eq_refl;
     CONFIG_IPV6_MIP6 := true;
     ipv6_find_tlv := fun skb off type =>
       if nh_u8 skb (off + 2) =? type then off + 2 else - 2;
     entropy := list byte;
     get_random_bytes := tape_random;
     siphash := toy_hash;
     idents := list Z;
     ip_idents_reserve := table_reserve;
     nf_hook := fun _ _ _ => 1;
     dst_output := fun _ => 0 |}.

Definition zeros (n : nat) : list byte := repeat Byte.x00 n.

(** A base header with the given "next header" byte; the other fields are
    left zero. *)
Definition base_hdr (nh : byte) : list byte :=
  zeros 6 ++ [nh] ++ zeros 33.

(** An 8-byte extension header: next header, [hdrlen] 0, six bytes of
    padding. *)
Definition ext_hdr8 (nh : byte) : list byte :=
  [nh; Byte.x00] ++ zeros 6.

(** A linear packet whose network header starts the buffer. *)
Definition linear_skb (bytes : list byte) : sk_buff :=
  {| skb_head := bytes; skb_data := 0;
     skb_tail := Z.of_nat (length bytes);
     skb_network_header := 0;
     skb_len := Z.of_nat (length bytes);
     skb_protocol := [Byte.x00; Byte.x00];
     skb_nhoff := 0;
     skb_ip6_frag_id := zeros 4 |}.

(** hop-by-hop, routing, destination options, then UDP (17 = 0x11). *)
Definition pkt_hop_rt_dst : sk_buff :=
  linear_skb (base_hdr Byte.x00 ++ ext_hdr8 Byte.x2b ++ ext_hdr8 Byte.x3c
              ++ ext_hdr8 Byte.x11 ++ zeros 8).

(** hop-by-hop, destination options, then UDP. *)
Definition pkt_hop_dst : sk_buff :=
  linear_skb (base_hdr Byte.x00 ++ ext_hdr8 Byte.x3c ++ ext_hdr8 Byte.x11
              ++ zeros 8).

(** A hop-by-hop header announced by the base header, of which only one
    byte was captured. *)
Definition pkt_truncated : sk_buff :=
  linear_skb (base_hdr Byte.x00 ++ [Byte.x11]).

(** A packet cut inside the base header. *)
Definition pkt_short : sk_buff :=
  linear_skb (zeros 6 ++ [Byte.x11] ++ zeros 13).

(** Thirty-one hop-by-hop headers of 2048 bytes each and the first two
    bytes of a thirty-second: its end would lie at 40 + 32 * 2048. *)
Definition ext_hdr2048 : list byte := [Byte.x00; Byte.xff] ++ zeros 2046.

Definition pkt_overlong : sk_buff :=
  linear_skb (base_hdr Byte.x00 ++ concat (repeat ext_hdr2048 31)
              ++ [Byte.x00; Byte.xff]).

(** A packet object whose [len] is above [INT_MAX] plus the base header. *)
Definition skb_huge_len : sk_buff :=
  {| skb_head := base_hdr Byte.x11; skb_data := 0; skb_tail := 40;
     skb_network_header := 0;
     skb_len := 2 ^ 31 + 41;
     skb_protocol := [Byte.x00; Byte.x00];
     skb_nhoff := 0;
     skb_ip6_frag_id := zeros 4 |}.

(** A packet of 65536 bytes of payload behind the base header, one more
    than [IPV6_MAXPLEN], and one of exactly [IPV6_MAXPLEN] bytes. *)
Definition pkt_jumbo : sk_buff :=
  linear_skb (base_hdr Byte.x11 ++ zeros (Z.to_nat 65536)).

Definition pkt_maxplen : sk_buff :=
  linear_skb (base_hdr Byte.x11 ++ zeros (Z.to_nat 65535)).

(** A random source whose first two draws of 16 bytes differ. *)
Definition world32_two_draws : @world kernel32 :=
  @mk_world kernel32 (repeat Byte.x5a 16 ++ repeat Byte.xa5 16)
            (repeat 0 8).

(** Two callers that have not started. *)
Definition two_callers : list caller :=
  [ {| c_dst := {| s6_addr := [Byte.xfe; Byte.x80] ++ zeros 13 ++ [Byte.x02] |};
       c_src := {| s6_addr := [Byte.xfe; Byte.x80] ++ zeros 13 ++ [Byte.x01] |};
       c_pc := at_test |};
    {| c_dst := {| s6_addr := [Byte.xfe; Byte.x80] ++ zeros 13 ++ [Byte.x01] |};
       c_src := {| s6_addr := [Byte.xfe; Byte.x80] ++ zeros 13 ++ [Byte.x02] |};
       c_pc := at_test |} ].

(** [pkt_truncated] with other bytes behind its tail. *)
Definition pkt_truncated_dirty : sk_buff :=
  {| skb_head := base_hdr Byte.x00 ++ [Byte.x11; Byte.xff; Byte.x2b];
     skb_data := 0; skb_tail := 41; skb_network_header := 0;
     skb_len := 41;
     skb_protocol := [Byte.x00; Byte.x00];
     skb_nhoff := 0;
     skb_ip6_frag_id := zeros 4 |}.

Definition net_unset : net := {| ip_id_key := zeros 16 |}.
Definition net_keyed : net :=
  {| ip_id_key := [Byte.x01] ++ zeros 15 |}.

Definition addr_a : in6_addr := {| s6_addr := [Byte.xfe; Byte.x80] ++ zeros 13 ++ [Byte.x01] |}.
Definition addr_b : in6_addr := {| s6_addr := [Byte.xfe; Byte.x80] ++ zeros 13 ++ [Byte.x02] |}.

Definition world32 : @world kernel32 :=
  @mk_world kernel32 (repeat Byte.x5a 64) (repeat 0 8).

Definition world32_used : @world kernel32 :=
  @mk_world kernel32 (repeat Byte.x5a 64) (repeat 7 8).

Definition overlong_last : walk_state :=
  {| offset := 40 + 31 * 2048; nexthdr := 40 + 30 * 2048;
     found_rhdr := false |}.

(** routing, destination options holding a home-address option (type
    201, 16 bytes of address) and padding, then UDP. *)
Definition dest_hdr_hao (nh : byte) : list byte :=
  [nh; Byte.x02; Byte.xc9; Byte.x10] ++ zeros 16
  ++ [Byte.x01; Byte.x02; Byte.x00; Byte.x00].

Definition pkt_rt_dst_hao : sk_buff :=
  linear_skb (base_hdr Byte.x2b ++ ext_hdr8 Byte.x3c
              ++ dest_hdr_hao Byte.x11 ++ zeros 8).

(** routing, hop-by-hop, destination options, then UDP. *)
Definition pkt_rt_hop_dst : sk_buff :=
  linear_skb (base_hdr Byte.x2b ++ ext_hdr8 Byte.x00 ++ ext_hdr8 Byte.x3c
              ++ ext_hdr8 Byte.x11 ++ zeros 8).

(** The first 56 bytes of [pkt_hop_rt_dst] followed by other payload. *)
Definition pkt_hop_rt_dst_longer : sk_buff :=
  linear_skb (base_hdr Byte.x00 ++ ext_hdr8 Byte.x2b ++ ext_hdr8 Byte.x3c
              ++ repeat Byte.xaa 32).

(** A UDP packet from [addr_a] to [addr_b]. *)
Definition pkt_a_to_b : sk_buff :=
  linear_skb (zeros 6 ++ [Byte.x11; Byte.x40]
              ++ [Byte.xfe; Byte.x80] ++ zeros 13 ++ [Byte.x01]
              ++ [Byte.xfe; Byte.x80] ++ zeros 13 ++ [Byte.x02]
              ++ zeros 8).

Definition rt_a_to_b : rt6_info :=
  {| rt6i_dst := {| s6_addr := [Byte.xfe; Byte.x80] ++ zeros 13 ++ [Byte.x02] |};
     rt6i_src := {| s6_addr := [Byte.xfe; Byte.x80] ++ zeros 13 ++ [Byte.x01] |} |}.

Definition fhdr_blank : frag_hdr :=
  {| fh_nexthdr := 17; fh_frag_off := zeros 2; identification := zeros 4 |}.

(** A state the walk never reaches: its offset is not a multiple of 8. *)
Definition unaligned_state : walk_state :=
  {| offset := IPV6_MAXPLEN - 8; nexthdr := offsetof_nexthdr;
     found_rhdr := false |}.

Definition pkt_zeros : sk_buff := linear_skb (zeros (Z.to_nat 65536)).

Example walk_hop_rt_dst :
  @ip6_find_1stfragopt kernel32 pkt_hop_rt_dst = Some (56, 48).
Proof. vm_compute. reflexivity. Qed.

Example walk_hop_dst :
  @ip6_find_1stfragopt kernel32 pkt_hop_dst = Some (56, 48).
Proof. vm_compute. reflexivity. Qed.

Example walk_truncated :
  @ip6_find_1stfragopt_traced kernel32 pkt_truncated
  = Some (einval_opt_hdr, 6).
Proof. vm_compute. reflexivity. Qed.

Example walk_truncated_dirty :
  @ip6_find_1stfragopt kernel32 pkt_truncated_dirty = Some (- EINVAL, 6).
Proof. vm_compute. reflexivity. Qed.

Example walk_short :
  @ip6_find_1stfragopt_traced kernel32 pkt_short
  = Some (einval_packet_len, 6).
Proof. vm_compute. reflexivity. Qed.

Example walk_overlong :
  @ip6_find_1stfragopt_traced kernel32 pkt_overlong
  = Some (einval_maxplen, 40 + 30 * 2048).
Proof. vm_compute. reflexivity. Qed.

(** Started by hand in a state whose offset is not a multiple of 8, the
    body fails at line 115 with an advanced offset equal to, not above,
    [IPV6_MAXPLEN]. *)
Example unaligned_state_fails :
  offset unaligned_state + ipv6_optlen pkt_zeros (offset unaligned_state)
  = IPV6_MAXPLEN
  /\ @loop_body kernel32 pkt_zeros unaligned_state = Return einval_maxplen.
Proof. vm_compute. split; reflexivity. Qed.

Example select_ident_first :
  let '(id, n, _) := @__ipv6_select_ident kernel32 net_unset world32 addr_a addr_b in
  id = 2 ^ 31 /\ ip_id_key n = repeat Byte.x5a 16.
Proof. vm_compute. split; reflexivity. Qed.

(** ** Integer conversions *)

Lemma u32_small (x : Z) : 0 <= x < 2 ^ 32 -> u32 x = x.
Proof. intros H. unfold u32, wrap. apply Z.mod_small. exact H. Qed.

Lemma u32_range (x : Z) : 0 <= u32 x < 2 ^ 32.
Proof. unfold u32, wrap. apply Z.mod_pos_bound. lia. Qed.

Lemma u16_small (x : Z) : 0 <= x < 2 ^ 16 -> u16 x = x.
Proof. intros H. unfold u16, wrap. apply Z.mod_small. exact H. Qed.

Lemma int_of_small (x : Z) : INT_MIN <= x <= INT_MAX -> int_of x = x.
Proof.
  unfold INT_MIN, INT_MAX, int_of, u32, wrap. intros H.
  destruct (Z.ltb_spec (x mod 2 ^ 32) (2 ^ 31)) as [Hlt | Hge].
  - destruct (Z.lt_ge_cases x 0) as [Hneg | Hpos].
    + replace x with ((x + 2 ^ 32) + (-1) * 2 ^ 32) in Hlt by ring.
      rewrite Z.mod_add in Hlt by lia.
      rewrite Z.mod_small in Hlt by lia. lia.
    + apply Z.mod_small. lia.
  - destruct (Z.lt_ge_cases x 0) as [Hneg | Hpos].
    + replace x with ((x + 2 ^ 32) + (-1) * 2 ^ 32) at 1 by ring.
      rewrite Z.mod_add by lia.
      rewrite Z.mod_small by lia. ring.
    + rewrite Z.mod_small in Hge by lia. lia.
Qed.

Lemma int_of_u32 (x : Z) : int_of (u32 x) = int_of x.
Proof.
  unfold int_of, u32, wrap. rewrite Z.mod_mod by lia. reflexivity.
Qed.

Lemma ntoh_htons (v : Z) : 0 <= v < 2 ^ 16 -> ntoh (htons v) = v.
Proof.
  intros H. unfold ntoh, htons. rewrite (u16_small v H). simpl.
  rewrite !byte.unsigned_of_Z. unfold byte.wrap.
  rewrite Z.shiftr_div_pow2 by lia.
  rewrite (Z.mod_small (v / 2 ^ 8)).
  - pose proof (Z.div_mod v (2 ^ 8)). lia.
  - split.
    + apply Z.div_pos; lia.
    + apply Z.div_lt_upper_bound; lia.
Qed.

Section KernelFacts.

Context {K : kernel}.

Lemma size_t_of_small (x : Z) : 0 <= x < 2 ^ 32 -> size_t_of x = x.
Proof.
  intros H. unfold size_t_of, wrap. apply Z.mod_small.
  pose proof BITS_PER_LONG_ge as Hb.
  assert (2 ^ 32 <= 2 ^ BITS_PER_LONG) by (apply Z.pow_le_mono_r; lia).
  lia.
Qed.

Lemma int_of_size_t_of (x : Z) : int_of (size_t_of x) = int_of x.
Proof.
  unfold int_of, u32, size_t_of, wrap.
  pose proof BITS_PER_LONG_ge as Hb.
  replace (2 ^ BITS_PER_LONG) with (2 ^ (BITS_PER_LONG - 32) * 2 ^ 32).
  - assert (0 < 2 ^ (BITS_PER_LONG - 32)) by (apply Z.pow_pos_nonneg; lia).
    rewrite Z.mul_comm.
    rewrite Z.rem_mul_r by lia.
    rewrite Z.mul_comm, Z.mod_add by lia.
    rewrite Z.mod_mod by lia. reflexivity.
  - rewrite <- Z.pow_add_r by lia. f_equal. lia.
Qed.

(** ** The loop body *)

Lemma nh_u8_range (skb : sk_buff) (pos : Z) : 0 <= nh_u8 skb pos <= 255.
Proof.
  unfold nh_u8. pose proof (byte.unsigned_range (buf_byte skb
    (skb_network_header skb + pos))). lia.
Qed.

Lemma ipv6_optlen_eq (skb : sk_buff) (off : Z) :
  ipv6_optlen skb off = 8 * (nh_u8 skb (off + 1) + 1).
Proof. unfold ipv6_optlen. rewrite Z.shiftl_mul_pow2 by lia. lia. Qed.

Lemma ipv6_optlen_range (skb : sk_buff) (off : Z) :
  8 <= ipv6_optlen skb off <= 2048.
Proof.
  rewrite ipv6_optlen_eq. pose proof (nh_u8_range skb (off + 1)). lia.
Qed.

Lemma packet_len_range (skb : sk_buff) : 0 <= packet_len skb < 2 ^ 32.
Proof. apply u32_range. Qed.

(** Below [IPV6_MAXPLEN] none of the unsigned operations of the body wraps:
    this is what the body computes there. *)
Lemma loop_body_break (skb : sk_buff) (st : walk_state) (rhdr : bool) :
  0 <= offset st < IPV6_MAXPLEN ->
  switch_nexthdr skb st = sw_break rhdr ->
  loop_body skb st =
    if offset st + sizeof_ipv6_opt_hdr >? packet_len skb
    then Return einval_opt_hdr
    else if ipv6_optlen skb (offset st) + offset st >=? IPV6_MAXPLEN
    then Return einval_maxplen
    else Continue {| offset := offset st + ipv6_optlen skb (offset st);
                     nexthdr := offset st;
                     found_rhdr := rhdr |}.
Proof.
  intros Hoff Hsw.
  unfold loop_body. rewrite Hsw.
  unfold IPV6_MAXPLEN, sizeof_ipv6_opt_hdr in *.
  pose proof (ipv6_optlen_range skb (offset st)) as Hlen.
  rewrite size_t_of_small by lia.
  rewrite (u32_small (ipv6_optlen skb (offset st))) by lia.
  rewrite (u32_small (ipv6_optlen skb (offset st) + offset st)) by lia.
  rewrite (u32_small (offset st + ipv6_optlen skb (offset st))) by lia.
  reflexivity.
Qed.

Lemma loop_body_return (skb : sk_buff) (st : walk_state) (off : Z) :
  switch_nexthdr skb st = sw_return off ->
  off = offset st /\ loop_body skb st = Return (found_at (offset st)).
Proof.
  intros Hsw. unfold loop_body. rewrite Hsw.
  unfold switch_nexthdr in Hsw.
  repeat match type of Hsw with
         | (if ?c then _ else _) = _ => destruct c
         end; try discriminate; injection Hsw as <-; split; reflexivity.
Qed.

(** What a continuing iteration does to the walk state. *)
Lemma loop_body_continue (skb : sk_buff) (st st' : walk_state) :
  0 <= offset st < IPV6_MAXPLEN ->
  loop_body skb st = Continue st' ->
  offset st' = offset st + ipv6_optlen skb (offset st)
  /\ nexthdr st' = offset st
  /\ offset st + sizeof_ipv6_opt_hdr <= packet_len skb
  /\ offset st' < IPV6_MAXPLEN.
Proof.
  intros Hoff Hb.
  destruct (switch_nexthdr skb st) as [rhdr | off] eqn:Hsw.
  - rewrite (loop_body_break skb st rhdr Hoff Hsw) in Hb.
    destruct (Z.gtb_spec (offset st + sizeof_ipv6_opt_hdr) (packet_len skb));
      [discriminate |].
    destruct (Z.geb_spec (ipv6_optlen skb (offset st) + offset st)
                IPV6_MAXPLEN); [discriminate |].
    injection Hb as <-. simpl. repeat split; lia.
  - destruct (loop_body_return skb st off Hsw) as [_ Hr].
    rewrite Hr in Hb. discriminate.
Qed.

Lemma walk_inv_init : walk_inv walk_init.
Proof. unfold walk_inv, walk_init. simpl. split; [ | reflexivity ].
  unfold sizeof_ipv6hdr, IPV6_MAXPLEN. lia.
Qed.

Lemma walk_inv_step (skb : sk_buff) (st st' : walk_state) :
  walk_inv st -> loop_body skb st = Continue st' ->
  walk_inv st' /\ offset st + 8 <= offset st'.
Proof.
  unfold walk_inv, sizeof_ipv6hdr. intros [Hr Hm] Hb.
  destruct (loop_body_continue skb st st') as (Ho & _ & _ & Hlt);
    [lia | exact Hb |].
  pose proof (ipv6_optlen_range skb (offset st)) as Hlen.
  repeat split; try lia.
  rewrite Ho, ipv6_optlen_eq.
  rewrite (Z.mul_comm 8), Z.mod_add by lia. exact Hm.
Qed.

Lemma reachable_inv (skb : sk_buff) (st : walk_state) :
  reachable skb st -> walk_inv st.
Proof.
  induction 1 as [ | st st' _ IH _ Hb].
  - apply walk_inv_init.
  - apply (walk_inv_step skb st st' IH Hb).
Qed.

(** ** The loop *)

Lemma walk_loop_mono (skb : sk_buff) (fuel fuel' : nat) :
  forall (st : walk_state) (r : walk_exit * Z),
    walk_loop fuel skb st = Some r ->
    (fuel <= fuel')%nat ->
    walk_loop fuel' skb st = Some r.
Proof.
  revert fuel'. induction fuel as [ | fuel IH]; intros fuel' st r Hr Hle.
  - discriminate.
  - destruct fuel' as [ | fuel']; [ inversion Hle | ].
    simpl in *.
    destruct (offset st <=? packet_len skb); [ | exact Hr ].
    destruct (loop_body skb st) as [e | st1]; [ exact Hr | ].
    apply IH; [ exact Hr | apply le_S_n; exact Hle ].
Qed.

(** With [fuel] tests of the loop condition the walk comes to an end from
    any state whose offset is at most [8 * fuel - 9] below the packet
    length. *)
Lemma walk_loop_total (skb : sk_buff) (fuel : nat) :
  forall st : walk_state,
    walk_inv st ->
    (1 <= fuel)%nat ->
    packet_len skb - offset st + 9 <= 8 * Z.of_nat fuel ->
    exists r, walk_loop fuel skb st = Some r.
Proof.
  induction fuel as [ | fuel IH]; intros st Hinv Hpos Hfuel.
  - inversion Hpos.
  - simpl.
    destruct (Z.leb_spec (offset st) (packet_len skb)) as [Hin | Hout];
      [ | eexists; reflexivity ].
    destruct (loop_body skb st) as [e | st1] eqn:Hb;
      [ eexists; reflexivity | ].
    destruct (walk_inv_step skb st st1 Hinv Hb) as [Hinv1 Hgrow].
    apply IH; [ exact Hinv1 | lia | lia ].
Qed.

Lemma walk_fuel_enough (skb : sk_buff) :
  packet_len skb - offset walk_init + 9 <= 8 * Z.of_nat (walk_fuel skb).
Proof.
  unfold walk_fuel. change (offset walk_init) with 40.
  pose proof (packet_len_range skb) as Hp.
  rewrite Nat2Z.inj_succ, Z2Nat.id by (apply Z.div_pos; lia).
  pose proof (Z.div_mod (packet_len skb) 8).
  pose proof (Z.mod_pos_bound (packet_len skb) 8). lia.
Qed.

Lemma traced_total (skb : sk_buff) :
  exists r, ip6_find_1stfragopt_traced skb = Some r.
Proof.
  unfold ip6_find_1stfragopt_traced.
  apply walk_loop_total.
  - apply walk_inv_init.
  - unfold walk_fuel. lia.
  - apply walk_fuel_enough.
Qed.

(** A result obtained with any amount of fuel is the result of the
    function. *)
Lemma walk_loop_traced (skb : sk_buff) (fuel : nat) (r : walk_exit * Z) :
  walk_loop fuel skb walk_init = Some r ->
  ip6_find_1stfragopt_traced skb = Some r.
Proof.
  intros Hr. destruct (traced_total skb) as [r0 Hr0].
  unfold ip6_find_1stfragopt_traced in *.
  pose proof (walk_loop_mono skb _ (Nat.max fuel (walk_fuel skb)) _ _ Hr
                (Nat.le_max_l _ _)) as H1.
  pose proof (walk_loop_mono skb _ (Nat.max fuel (walk_fuel skb)) _ _ Hr0
                (Nat.le_max_r _ _)) as H2.
  congruence.
Qed.

Lemma reachable_walk (skb : sk_buff) (st : walk_state) :
  reachable skb st ->
  forall (fuel : nat) (r : walk_exit * Z),
    walk_loop fuel skb st = Some r ->
    ip6_find_1stfragopt_traced skb = Some r.
Proof.
  induction 1 as [ | st st' _ IH Hin Hb]; intros fuel r Hr.
  - apply (walk_loop_traced skb fuel r Hr).
  - apply (IH (S fuel) r). simpl.
    apply Z.leb_le in Hin. rewrite Hin, Hb. exact Hr.
Qed.

(** A [return] taken in an iteration the walk reaches is the outcome of the
    whole function. *)
Lemma reachable_return (skb : sk_buff) (st : walk_state) (e : walk_exit) :
  reachable skb st ->
  offset st <= packet_len skb ->
  loop_body skb st = Return e ->
  ip6_find_1stfragopt_traced skb = Some (e, nexthdr st).
Proof.
  intros Hreach Hin Hb.
  apply (reachable_walk skb st Hreach 1). simpl.
  apply Z.leb_le in Hin. rewrite Hin, Hb. reflexivity.
Qed.

Lemma reachable_loop_exit (skb : sk_buff) (st : walk_state) :
  reachable skb st ->
  packet_len skb < offset st ->
  ip6_find_1stfragopt_traced skb = Some (einval_packet_len, nexthdr st).
Proof.
  intros Hreach Hout.
  apply (reachable_walk skb st Hreach 1). simpl.
  apply Z.leb_gt in Hout. rewrite Hout. reflexivity.
Qed.

Lemma traced_code (skb : sk_buff) (e : walk_exit) (nh : Z) :
  ip6_find_1stfragopt_traced skb = Some (e, nh) ->
  ip6_find_1stfragopt skb = Some (exit_code e, nh).
Proof. intros H. unfold ip6_find_1stfragopt. rewrite H. reflexivity. Qed.

(** Every exit of the walk is taken from a reachable state. *)
Lemma walk_loop_exit_from (skb : sk_buff) (fuel : nat) :
  forall (st : walk_state) (e : walk_exit) (nh : Z),
    reachable skb st ->
    walk_loop fuel skb st = Some (e, nh) ->
    exists st1,
      reachable skb st1 /\ nexthdr st1 = nh
      /\ ((offset st1 <= packet_len skb /\ loop_body skb st1 = Return e)
          \/ (packet_len skb < offset st1 /\ e = einval_packet_len)).
Proof.
  induction fuel as [ | fuel IH]; intros st e nh Hreach Hr.
  - discriminate.
  - simpl in Hr.
    destruct (Z.leb_spec (offset st) (packet_len skb)) as [Hin | Hout].
    + destruct (loop_body skb st) as [e1 | st1] eqn:Hb.
      * injection Hr as <- <-. exists st. auto.
      * apply (IH st1 e nh); [ | exact Hr ].
        apply (reach_step skb st st1 Hreach Hin Hb).
    + injection Hr as <- <-. exists st. auto.
Qed.
End KernelFacts.

(** ** Properties of identifier generation *)

Section IdentFacts.

Context {K : kernel}.

Lemma ident_nonzero_neq (id : Z) : ident_nonzero id <> 0.
Proof.
  unfold ident_nonzero. destruct (Z.eqb_spec id 0) as [_ | Hne].
  - vm_compute. discriminate.
  - exact Hne.
Qed.

Lemma select_ident_id (n : net) (w : world) (dst src : in6_addr) :
  fst (fst (__ipv6_select_ident n w dst src))
  = ident_nonzero (reserved_id n w dst src).
Proof.
  unfold __ipv6_select_ident, reserved_id.
  destruct (ip_id_key_fill n (w_entropy w)) as [n' ent']. simpl.
  destruct (ip_idents_reserve (w_idents w) (ident_hash n' dst src) 1)
    as [id ids']. reflexivity.
Qed.

Lemma select_ident_net (n : net) (w : world) (dst src : in6_addr) :
  snd (fst (__ipv6_select_ident n w dst src))
  = fst (ip_id_key_fill n (w_entropy w)).
Proof.
  unfold __ipv6_select_ident.
  destruct (ip_id_key_fill n (w_entropy w)) as [n' ent']. simpl.
  destruct (ip_idents_reserve (w_idents w) (ident_hash n' dst src) 1)
    as [id ids']. reflexivity.
Qed.

(** C1: for every namespace and address pair [__ipv6_select_ident] never
    returns 0: when the value reserved from the identifier table is 0 it
    returns 2^31, and any other reserved value is returned unchanged. *)
Theorem select_ident_never_zero (n : net) (w : world) (dst src : in6_addr) :
  let id := fst (fst (__ipv6_select_ident n w dst src)) in
  let reserved := reserved_id n w dst src in
  id <> 0
  /\ (reserved = 0 -> id = 2 ^ 31)
  /\ (reserved <> 0 -> id = reserved).
Proof.
  cbv zeta. rewrite select_ident_id. split; [ | split ].
  - apply ident_nonzero_neq.
  - intros ->. reflexivity.
  - intros Hne. unfold ident_nonzero.
    destruct (Z.eqb_spec (reserved_id n w dst src) 0); [ contradiction | ].
    reflexivity.
Qed.

Lemma key_fill_nonzero (n : net) (ent : entropy) :
  siphash_key_is_zero (ip_id_key n) = false ->
  ip_id_key_fill n ent = (n, ent).
Proof. intros H. unfold ip_id_key_fill. rewrite H. reflexivity. Qed.

Lemma select_idents_keep_key (calls : list (in6_addr * in6_addr)) :
  forall (n : net) (w : world),
    siphash_key_is_zero (ip_id_key n) = false ->
    snd (fst (select_idents n w calls)) = n.
Proof.
  induction calls as [ | [dst src] calls IH]; intros n w Hkey.
  - reflexivity.
  - simpl.
    pose proof (select_ident_net n w dst src) as Hn.
    rewrite (key_fill_nonzero n (w_entropy w) Hkey) in Hn. simpl in Hn.
    destruct (__ipv6_select_ident n w dst src) as [[id n1] w1].
    simpl in Hn. subst n1.
    specialize (IH n w1 Hkey).
    destruct (select_idents n w1 calls) as [[ids n2] w2].
    exact IH.
Qed.

(** One call after the other, none running inside another: the seed is
    written only when the stored seed is all-zero, and then with the bytes
    drawn from the random source; a seed that is not all-zero is left as
    it is by one call and by every sequence of such calls. *)
Lemma seed_filled_once (n : net) (w : world) :
  (forall dst src,
      ip_id_key (snd (fst (__ipv6_select_ident n w dst src)))
      = if siphash_key_is_zero (ip_id_key n)
        then fst (get_random_bytes (w_entropy w) sizeof_siphash_key_t)
        else ip_id_key n)
  /\ (siphash_key_is_zero (ip_id_key n) = false ->
      forall calls, ip_id_key (snd (fst (select_idents n w calls)))
                    = ip_id_key n).
Proof.
  split.
  - intros dst src. rewrite select_ident_net. unfold ip_id_key_fill.
    destruct (siphash_key_is_zero (ip_id_key n)); [ | reflexivity ].
    destruct (get_random_bytes (w_entropy w) sizeof_siphash_key_t).
    reflexivity.
  - intros Hkey calls. rewrite (select_idents_keep_key calls n w Hkey).
    reflexivity.
Qed.

(** *** The statement-level model *)

Lemma step_at_app (pre rest : list caller) (c : caller) (n : net)
    (w : world) :
  step_at (length pre) (pre ++ c :: rest) n w
  = (pre ++ fst (fst (caller_step c n w)) :: rest,
     snd (fst (caller_step c n w)), snd (caller_step c n w)).
Proof.
  induction pre as [ | p pre IH]; simpl.
  - destruct (caller_step c n w) as [[c' n'] w']. reflexivity.
  - rewrite IH. reflexivity.
Qed.

Lemma run_one (pre rest : list caller) (c c' : caller) (n n' : net)
    (w w' : world) (sched : list nat) :
  caller_step c n w = (c', n', w') ->
  run_schedule (length pre :: sched) (pre ++ c :: rest) n w
  = run_schedule sched (pre ++ c' :: rest) n' w'.
Proof.
  intros Hstep. simpl. rewrite step_at_app, Hstep. reflexivity.
Qed.

Lemma run_schedule_app (s1 s2 : list nat) :
  forall (cs : list caller) (n : net) (w : world),
    run_schedule (s1 ++ s2) cs n w
    = run_schedule s2 (fst (fst (run_schedule s1 cs n w)))
                   (snd (fst (run_schedule s1 cs n w)))
                   (snd (run_schedule s1 cs n w)).
Proof.
  induction s1 as [ | i s1 IH]; intros cs n w; simpl.
  - reflexivity.
  - destruct (step_at i cs n w) as [[cs' n'] w']. apply IH.
Qed.

(** A caller that takes its four steps with no other caller in between
    does what [__ipv6_select_ident] does. *)
Lemma caller_alone (pre rest : list caller) (dst src : in6_addr)
    (n : net) (w : world) :
  run_schedule (repeat (length pre) 4)
    (pre ++ {| c_dst := dst; c_src := src; c_pc := at_test |} :: rest) n w
  = (pre ++ {| c_dst := dst; c_src := src;
               c_pc := returned
                         (fst (fst (__ipv6_select_ident n w dst src))) |}
         :: rest,
     snd (fst (__ipv6_select_ident n w dst src)),
     snd (__ipv6_select_ident n w dst src)).
Proof.
  unfold __ipv6_select_ident, ip_id_key_fill.
  change (repeat (length pre) 4)
    with [length pre; length pre; length pre; length pre].
  destruct (siphash_key_is_zero (ip_id_key n)) eqn:Hz.
  - destruct (get_random_bytes (w_entropy w) sizeof_siphash_key_t)
      as [bs ent'] eqn:Hg.
    destruct (ip_idents_reserve (w_idents w)
                (ident_hash {| ip_id_key := bs |} dst src) 1)
      as [id ids'] eqn:Hr.
    erewrite run_one
      by (unfold caller_step; cbn [c_pc]; rewrite Hz; reflexivity).
    erewrite run_one
      by (unfold caller_step, set_pc; cbn [c_pc c_dst c_src];
          rewrite Hg; reflexivity).
    erewrite run_one by reflexivity.
    erewrite run_one
      by (unfold caller_step, set_pc;
          cbn [c_pc c_dst c_src w_idents w_entropy];
          rewrite Hr; reflexivity).
    reflexivity.
  - destruct (ip_idents_reserve (w_idents w) (ident_hash n dst src) 1)
      as [id ids'] eqn:Hr.
    erewrite run_one
      by (unfold caller_step; cbn [c_pc]; rewrite Hz; reflexivity).
    erewrite run_one by reflexivity.
    erewrite run_one
      by (unfold caller_step, set_pc; cbn [c_pc c_dst c_src];
          rewrite Hr; reflexivity).
    erewrite run_one by reflexivity.
    reflexivity.
Qed.

(** Calls that do not overlap are [select_idents]. *)
Lemma run_serial (calls : list (in6_addr * in6_addr)) :
  forall (pre : list caller) (n : net) (w : world),
    run_schedule (serial_schedule (length pre) (length calls))
                 (pre ++ fresh_callers calls) n w
    = (pre ++ returned_callers calls (fst (fst (select_idents n w calls))),
       snd (fst (select_idents n w calls)),
       snd (select_idents n w calls)).
Proof.
  induction calls as [ | [dst src] calls IH]; intros pre n w.
  - reflexivity.
  - change (serial_schedule (length pre) (length ((dst, src) :: calls)))
      with (repeat (length pre) 4
            ++ serial_schedule (S (length pre)) (length calls)).
    rewrite run_schedule_app.
    change (fresh_callers ((dst, src) :: calls))
      with ({| c_dst := dst; c_src := src; c_pc := at_test |}
            :: fresh_callers calls).
    rewrite caller_alone. cbn [fst snd].
    simpl select_idents.
    destruct (__ipv6_select_ident n w dst src) as [[id n1] w1].
    cbn [fst snd].
    specialize (IH (pre ++ [{| c_dst := dst; c_src := src;
                               c_pc := returned id |}]) n1 w1).
    rewrite length_app, Nat.add_1_r, <- app_assoc in IH.
    cbn [app] in IH. rewrite IH.
    destruct (select_idents n1 w1 calls) as [[ids n2] w2].
    cbn [fst snd]. rewrite <- app_assoc. reflexivity.
Qed.

(** C8, amended: a statement of identifier generation writes the seed only
    at the store of lines 25 and 26, which a caller reaches only after its
    own test of line 24 has found the stored seed all-zero; and for every
    sequence of generate calls that do not overlap (each call returns
    before the next one starts) a seed that is not all-zero is preserved
    unchanged.  Such calls are exactly [select_idents], and a single such
    call leaves the seed it found, or the bytes it drew when the seed was
    all-zero. *)
Theorem seed_kept_without_overlap (n : net) (w : world) :
  (forall c,
      c_pc c <> at_fill -> snd (fst (caller_step c n w)) = n)
  /\ (forall c,
         c_pc (fst (fst (caller_step c n w))) = at_fill ->
         c_pc c = at_test /\ siphash_key_is_zero (ip_id_key n) = true)
  /\ (forall calls,
         run_schedule (serial_schedule 0 (length calls))
                      (fresh_callers calls) n w
         = (returned_callers calls (fst (fst (select_idents n w calls))),
            snd (fst (select_idents n w calls)),
            snd (select_idents n w calls)))
  /\ (siphash_key_is_zero (ip_id_key n) = false ->
       forall calls,
         ip_id_key (snd (fst (run_schedule
                                (serial_schedule 0 (length calls))
                                (fresh_callers calls) n w)))
         = ip_id_key n)
  /\ (forall dst src,
         ip_id_key (snd (fst (run_schedule (serial_schedule 0 1)
                                (fresh_callers [(dst, src)]) n w)))
         = if siphash_key_is_zero (ip_id_key n)
           then fst (get_random_bytes (w_entropy w) sizeof_siphash_key_t)
           else ip_id_key n).
Proof.
  split; [ | split; [ | split; [ | split ] ] ].
  - intros c Hpc. unfold caller_step.
    destruct (c_pc c) as [ | | | hash | id]; try reflexivity.
    + contradiction.
    + destruct (ip_idents_reserve (w_idents w) hash 1). reflexivity.
  - intros c. unfold caller_step.
    destruct (c_pc c) as [ | | | hash | id] eqn:Hpc; cbn [fst snd].
    + destruct (siphash_key_is_zero (ip_id_key n)); cbn [c_pc set_pc].
      * intros _. split; reflexivity.
      * discriminate.
    + destruct (get_random_bytes (w_entropy w) sizeof_siphash_key_t).
      cbn [fst c_pc set_pc]. discriminate.
    + cbn [c_pc set_pc]. discriminate.
    + destruct (ip_idents_reserve (w_idents w) hash 1).
      cbn [fst c_pc set_pc]. discriminate.
    + rewrite Hpc. discriminate.
  - intros calls. apply (run_serial calls [] n w).
  - intros Hkey calls.
    pose proof (run_serial calls [] n w) as Hrun.
    cbn [length app] in Hrun. rewrite Hrun. cbn [fst snd].
    rewrite (select_idents_keep_key calls n w Hkey). reflexivity.
  - intros dst src.
    pose proof (run_serial [(dst, src)] [] n w) as Hrun.
    cbn [length app] in Hrun. rewrite Hrun. cbn [fst snd].
    simpl select_idents.
    pose proof (select_ident_net n w dst src) as Hn.
    destruct (__ipv6_select_ident n w dst src) as [[id n1] w1].
    cbn [fst snd] in *. subst n1. unfold ip_id_key_fill.
    destruct (siphash_key_is_zero (ip_id_key n)); [ | reflexivity ].
    destruct (get_random_bytes (w_entropy w) sizeof_siphash_key_t).
    reflexivity.
Qed.

(** On a packet whose network header is within [int] range of [skb->data]
    the region read by the proxy path starts at the source address. *)
Lemma proxy_addrs_pos_saddr (skb : sk_buff) :
  INT_MIN <= skb_network_header skb - skb_data skb
          <= INT_MAX - offsetof_saddr ->
  proxy_addrs_pos skb = skb_network_header skb + offsetof_saddr.
Proof.
  unfold proxy_addrs_pos, skb_network_offset, offsetof_saddr. intros H.
  rewrite (int_of_small (skb_network_header skb - skb_data skb)) by lia.
  rewrite int_of_small by lia. ring.
Qed.

Lemma short_packet_not_captured (skb : sk_buff) :
  INT_MIN <= skb_network_header skb - skb_data skb
          <= INT_MAX - offsetof_saddr ->
  skb_tail skb < skb_network_header skb + sizeof_ipv6hdr ->
  ~ proxy_addrs_captured skb.
Proof.
  intros Hsane Hshort (_ & Hcov & _).
  rewrite (proxy_addrs_pos_saddr skb Hsane) in Hcov.
  unfold offsetof_saddr, sizeof_in6_addr, sizeof_ipv6hdr in *. lia.
Qed.

Lemma header_pointer_none (skb : sk_buff) :
  ~ proxy_addrs_captured skb ->
  skb_header_pointer skb (int_of (skb_network_offset skb + offsetof_saddr))
                     (2 * sizeof_in6_addr) = None.
Proof.
  intros Hnot. unfold skb_header_pointer.
  fold (proxy_addrs_pos skb).
  destruct (Z.leb_spec 0 (proxy_addrs_pos skb)); [ | reflexivity ].
  destruct (Z.leb_spec (proxy_addrs_pos skb + 2 * sizeof_in6_addr)
              (skb_tail skb)); [ | reflexivity ].
  destruct (Z.leb_spec (skb_tail skb) (Z.of_nat (length (skb_head skb))));
    [ | reflexivity ].
  exfalso. apply Hnot. unfold proxy_addrs_captured. auto.
Qed.

(** C9: when the captured bytes of a packet do not cover the two addresses
    of its base header, [ipv6_proxy_select_ident] changes nothing: the
    packet, with its [ip6_frag_id], the namespace, the random source and
    the identifier table are as before, and there is no error result. *)
Theorem proxy_select_ident_short_packet (n : net) (w : world)
    (skb : sk_buff) :
  ~ proxy_addrs_captured skb ->
  ipv6_proxy_select_ident n w skb = (n, w, skb)
  /\ skb_ip6_frag_id (snd (ipv6_proxy_select_ident n w skb))
     = skb_ip6_frag_id skb.
Proof.
  intros Hnot. unfold ipv6_proxy_select_ident.
  rewrite (header_pointer_none skb Hnot). split; reflexivity.
Qed.

End IdentFacts.

(** ** Properties of output finalisation *)

Lemma store_at_slice (bs : list byte) :
  forall (pos : nat) (buf : list byte),
    (pos + length bs <= length buf)%nat ->
    slice pos (length bs) (store_at pos bs buf) = bs.
Proof.
  unfold slice. intros pos. induction pos as [ | pos IH]; intros buf Hlen.
  - simpl skipn. revert buf Hlen.
    induction bs as [ | b bs IHbs]; intros buf Hlen.
    + reflexivity.
    + destruct buf as [ | c buf]; [ simpl in Hlen; lia | ].
      simpl. f_equal. apply IHbs. simpl in Hlen. lia.
  - destruct buf as [ | c buf].
    + simpl in Hlen. lia.
    + simpl. apply IH. simpl in Hlen. lia.
Qed.

Section FinalizeFacts.

Context {K : kernel}.

Lemma local_out_len_int (skb : sk_buff) :
  INT_MIN <= skb_len skb - sizeof_ipv6hdr <= INT_MAX ->
  local_out_len skb
  = if skb_len skb - sizeof_ipv6hdr >? IPV6_MAXPLEN
    then 0 else skb_len skb - sizeof_ipv6hdr.
Proof.
  intros H. unfold local_out_len.
  rewrite int_of_size_t_of, (int_of_small _ H). reflexivity.
Qed.

(** C7: [__ip6_local_out] computes the total length minus the size of the
    base header and stores into the payload-length field, in network byte
    order, zero when that difference exceeds [IPV6_MAXPLEN] and the
    difference otherwise (its low 16 bits, which are the difference itself
    whenever the packet is at least as long as the base header).  The
    difference is held in the [int len] of line 126: the statement is for
    the packets whose difference that [int] can hold, lengths below
    2 GiB. *)
Theorem local_out_payload_len (skb : sk_buff) :
  let v := skb_len skb - sizeof_ipv6hdr in
  let written := htons (if v >? IPV6_MAXPLEN then 0 else v) in
  INT_MIN <= v <= INT_MAX ->
  skb_head (snd (__ip6_local_out skb))
  = store_at (Z.to_nat (skb_network_header skb + offsetof_payload_len))
             written (skb_head skb)
  /\ (IPV6_MAXPLEN < v -> written = [Byte.x00; Byte.x00])
  /\ (0 <= v <= IPV6_MAXPLEN -> ntoh written = v)
  /\ (0 <= skb_network_header skb ->
      skb_network_header skb + sizeof_ipv6hdr
        <= Z.of_nat (length (skb_head skb)) ->
      payload_len_field (snd (__ip6_local_out skb)) = written).
Proof.
  intros v written Hv. subst written.
  assert (Hhead : skb_head (snd (__ip6_local_out skb))
                  = store_at (Z.to_nat (skb_network_header skb
                                        + offsetof_payload_len))
                      (htons (if v >? IPV6_MAXPLEN then 0 else v))
                      (skb_head skb)).
  { unfold __ip6_local_out, local_out_fill. simpl.
    rewrite (local_out_len_int skb Hv). reflexivity. }
  split; [ exact Hhead | ]. split; [ | split ].
  - intros Hbig. apply Z.gtb_lt in Hbig. rewrite Hbig. reflexivity.
  - intros Hin.
    destruct (Z.gtb_spec v IPV6_MAXPLEN) as [Hgt | _].
    + unfold IPV6_MAXPLEN in *. lia.
    + apply ntoh_htons. unfold IPV6_MAXPLEN in *. lia.
  - intros Hnh Hbuf. unfold payload_len_field. rewrite Hhead.
    change (skb_network_header (snd (__ip6_local_out skb)))
      with (skb_network_header skb).
    apply (store_at_slice (htons (if v >? IPV6_MAXPLEN then 0 else v))).
    unfold offsetof_payload_len, sizeof_ipv6hdr in *.
    change (length (htons (if v >? IPV6_MAXPLEN then 0 else v))) with 2%nat.
    lia.
Qed.

End FinalizeFacts.

(** ** Properties of the extension-header walk *)

Section WalkFacts.

Context {K : kernel}.

(** A continuing iteration whose header is captured and ends below
    [IPV6_MAXPLEN]. *)
Lemma loop_body_advance (skb : sk_buff) (st : walk_state) (rhdr : bool) :
  0 <= offset st ->
  switch_nexthdr skb st = sw_break rhdr ->
  offset st + sizeof_ipv6_opt_hdr <= packet_len skb ->
  offset st + ipv6_optlen skb (offset st) < IPV6_MAXPLEN ->
  loop_body skb st
  = Continue {| offset := offset st + ipv6_optlen skb (offset st);
                nexthdr := offset st;
                found_rhdr := rhdr |}.
Proof.
  intros Hpos Hsw Hfit Hlen.
  pose proof (ipv6_optlen_range skb (offset st)) as Hr.
  rewrite (loop_body_break skb st rhdr) by (try exact Hsw; lia).
  destruct (Z.gtb_spec (offset st + sizeof_ipv6_opt_hdr) (packet_len skb));
    [ lia | ].
  destruct (Z.geb_spec (ipv6_optlen skb (offset st) + offset st)
              IPV6_MAXPLEN); [ lia | reflexivity ].
Qed.

Lemma switch_hop (skb : sk_buff) (st : walk_state) :
  nh_u8 skb (nexthdr st) = NEXTHDR_HOP ->
  switch_nexthdr skb st = sw_break (found_rhdr st).
Proof. intros H. unfold switch_nexthdr. rewrite H. reflexivity. Qed.

Lemma switch_routing (skb : sk_buff) (st : walk_state) :
  nh_u8 skb (nexthdr st) = NEXTHDR_ROUTING ->
  switch_nexthdr skb st = sw_break true.
Proof. intros H. unfold switch_nexthdr. rewrite H. reflexivity. Qed.

(** Destination options after a routing header, without a home-address
    option: the walk stops. *)
Lemma switch_dest_after_routing (skb : sk_buff) (st : walk_state) :
  nh_u8 skb (nexthdr st) = NEXTHDR_DEST ->
  found_rhdr st = true ->
  CONFIG_IPV6_MIP6 = false
  \/ ipv6_find_tlv skb (int_of (offset st)) IPV6_TLV_HAO < 0 ->
  switch_nexthdr skb st = sw_return (offset st).
Proof.
  intros H Hr Hhao. unfold switch_nexthdr. rewrite H, Hr. simpl.
  destruct Hhao as [-> | Hneg]; [ reflexivity | ].
  apply Z.leb_gt in Hneg. rewrite Hneg, andb_false_r. reflexivity.
Qed.

(** Destination options with no routing header before them: the walk goes
    on, with or without a home-address option. *)
Lemma switch_dest_no_routing (skb : sk_buff) (st : walk_state) :
  nh_u8 skb (nexthdr st) = NEXTHDR_DEST ->
  found_rhdr st = false ->
  switch_nexthdr skb st = sw_break false.
Proof.
  intros H Hr. unfold switch_nexthdr. rewrite H, Hr. simpl.
  destruct (CONFIG_IPV6_MIP6 && _); reflexivity.
Qed.

Lemma switch_other (skb : sk_buff) (st : walk_state) :
  nh_u8 skb (nexthdr st) <> NEXTHDR_HOP ->
  nh_u8 skb (nexthdr st) <> NEXTHDR_ROUTING ->
  nh_u8 skb (nexthdr st) <> NEXTHDR_DEST ->
  switch_nexthdr skb st = sw_return (offset st).
Proof.
  intros H1 H2 H3. unfold switch_nexthdr.
  apply Z.eqb_neq in H1, H2, H3. rewrite H1, H2, H3. reflexivity.
Qed.

(** C2: in a packet whose chain is hop-by-hop, routing, destination options
    (with no home-address option, or in a kernel built without the mobility
    extension), [ip6_find_1stfragopt] returns the offset at which the
    destination-options header starts and leaves [*nexthdr] on the routing
    header's "next header" byte. *)
Theorem hop_routing_dest_stops_at_dest (skb : sk_buff) :
  let hop := sizeof_ipv6hdr in
  let rt := hop + ipv6_optlen skb hop in
  let dst := rt + ipv6_optlen skb rt in
  nh_u8 skb offsetof_nexthdr = NEXTHDR_HOP ->
  hop + sizeof_ipv6_opt_hdr <= packet_len skb ->
  nh_u8 skb hop = NEXTHDR_ROUTING ->
  rt + sizeof_ipv6_opt_hdr <= packet_len skb ->
  nh_u8 skb rt = NEXTHDR_DEST ->
  dst <= packet_len skb ->
  CONFIG_IPV6_MIP6 = false \/ ipv6_find_tlv skb dst IPV6_TLV_HAO < 0 ->
  ip6_find_1stfragopt skb = Some (dst, rt).
Proof.
  intros hop rt dst Hbase Hhop_fit Hhop Hrt_fit Hrt Hdst_in Hhao.
  pose proof (ipv6_optlen_range skb hop) as Hl1.
  pose proof (ipv6_optlen_range skb rt) as Hl2.
  assert (Hhop40 : hop = 40) by reflexivity.
  unfold IPV6_MAXPLEN, sizeof_ipv6_opt_hdr in *.
  set (st1 := {| offset := rt; nexthdr := hop; found_rhdr := false |}).
  set (st2 := {| offset := dst; nexthdr := rt; found_rhdr := true |}).
  assert (Hb0 : loop_body skb walk_init = Continue st1).
  { apply (loop_body_advance skb walk_init false).
    - simpl. lia.
    - apply switch_hop. exact Hbase.
    - exact Hhop_fit.
    - change (offset walk_init) with hop. unfold IPV6_MAXPLEN. lia. }
  assert (Hb1 : loop_body skb st1 = Continue st2).
  { apply (loop_body_advance skb st1 true).
    - simpl. lia.
    - apply switch_routing. exact Hhop.
    - exact Hrt_fit.
    - change (offset st1) with rt. unfold IPV6_MAXPLEN. lia. }
  assert (Hb2 : loop_body skb st2 = Return (found_at dst)).
  { apply (loop_body_return skb st2 dst).
    apply (switch_dest_after_routing skb st2 Hrt eq_refl).
    change (offset st2) with dst.
    rewrite int_of_small by (unfold INT_MIN, INT_MAX; lia). exact Hhao. }
  assert (Hr1 : reachable skb st1).
  { apply (reach_step skb walk_init st1 (reach_init skb)); [ | exact Hb0 ].
    change (offset walk_init) with hop. lia. }
  assert (Hr2 : reachable skb st2).
  { apply (reach_step skb st1 st2 Hr1); [ | exact Hb1 ].
    change (offset st1) with rt. lia. }
  pose proof (reachable_return skb st2 (found_at dst) Hr2 Hdst_in Hb2) as Ht.
  rewrite (traced_code skb _ _ Ht). simpl.
  rewrite int_of_small by (unfold INT_MIN, INT_MAX; lia). reflexivity.
Qed.

(** C3: in a packet whose chain is hop-by-hop, destination options, then a
    type that is none of hop-by-hop, routing and destination options,
    [ip6_find_1stfragopt] walks past the destination-options header and
    returns the offset of the header that follows it; [*nexthdr] is left on
    the destination-options header's "next header" byte. *)
Theorem hop_dest_walks_to_upper (skb : sk_buff) :
  let hop := sizeof_ipv6hdr in
  let dst := hop + ipv6_optlen skb hop in
  let upper := dst + ipv6_optlen skb dst in
  nh_u8 skb offsetof_nexthdr = NEXTHDR_HOP ->
  hop + sizeof_ipv6_opt_hdr <= packet_len skb ->
  nh_u8 skb hop = NEXTHDR_DEST ->
  dst + sizeof_ipv6_opt_hdr <= packet_len skb ->
  nh_u8 skb dst <> NEXTHDR_HOP ->
  nh_u8 skb dst <> NEXTHDR_ROUTING ->
  nh_u8 skb dst <> NEXTHDR_DEST ->
  upper <= packet_len skb ->
  ip6_find_1stfragopt skb = Some (upper, dst).
Proof.
  intros hop dst upper Hbase Hhop_fit Hhop Hdst_fit Hu1 Hu2 Hu3 Hup_in.
  pose proof (ipv6_optlen_range skb hop) as Hl1.
  pose proof (ipv6_optlen_range skb dst) as Hl2.
  assert (Hhop40 : hop = 40) by reflexivity.
  unfold IPV6_MAXPLEN, sizeof_ipv6_opt_hdr in *.
  set (st1 := {| offset := dst; nexthdr := hop; found_rhdr := false |}).
  set (st2 := {| offset := upper; nexthdr := dst; found_rhdr := false |}).
  assert (Hb0 : loop_body skb walk_init = Continue st1).
  { apply (loop_body_advance skb walk_init false).
    - simpl. lia.
    - apply switch_hop. exact Hbase.
    - exact Hhop_fit.
    - change (offset walk_init) with hop. unfold IPV6_MAXPLEN. lia. }
  assert (Hb1 : loop_body skb st1 = Continue st2).
  { apply (loop_body_advance skb st1 false).
    - simpl. lia.
    - apply switch_dest_no_routing; [ exact Hhop | reflexivity ].
    - exact Hdst_fit.
    - change (offset st1) with dst. unfold IPV6_MAXPLEN. lia. }
  assert (Hb2 : loop_body skb st2 = Return (found_at upper)).
  { apply (loop_body_return skb st2 upper).
    apply (switch_other skb st2 Hu1 Hu2 Hu3). }
  assert (Hr1 : reachable skb st1).
  { apply (reach_step skb walk_init st1 (reach_init skb)); [ | exact Hb0 ].
    change (offset walk_init) with hop. lia. }
  assert (Hr2 : reachable skb st2).
  { apply (reach_step skb st1 st2 Hr1); [ | exact Hb1 ].
    change (offset st1) with dst. lia. }
  pose proof (reachable_return skb st2 (found_at upper) Hr2 Hup_in Hb2) as Ht.
  rewrite (traced_code skb _ _ Ht). simpl.
  rewrite int_of_small by (unfold INT_MIN, INT_MAX; lia). reflexivity.
Qed.

(** C4: in an iteration the walk reaches, whose [switch] continues and whose
    header prefix is captured, the walk fails with [LengthOverflow] (the
    [return] of line 115) exactly when the offset advanced by the length of
    the header exceeds [IPV6_MAXPLEN]; otherwise the iteration goes on with
    the advanced offset.  The advanced offset is a multiple of 8 and so
    never equals [IPV6_MAXPLEN]: the [>=] of line 114 and "exceeds" agree
    on every state of the walk. *)
Theorem length_overflow_check (skb : sk_buff) (st : walk_state)
    (rhdr : bool) :
  let advanced := offset st + ipv6_optlen skb (offset st) in
  reachable skb st ->
  switch_nexthdr skb st = sw_break rhdr ->
  offset st + sizeof_ipv6_opt_hdr <= packet_len skb ->
  (loop_body skb st = Return einval_maxplen <-> IPV6_MAXPLEN < advanced)
  /\ (IPV6_MAXPLEN < advanced ->
      ip6_find_1stfragopt_traced skb = Some (einval_maxplen, nexthdr st)
      /\ error_kind einval_maxplen = Some LengthOverflow)
  /\ (advanced <= IPV6_MAXPLEN ->
      loop_body skb st = Continue {| offset := advanced;
                                     nexthdr := offset st;
                                     found_rhdr := rhdr |}).
Proof.
  intros advanced Hreach Hsw Hfit.
  assert (Hin : offset st <= packet_len skb)
    by (unfold sizeof_ipv6_opt_hdr in Hfit; lia).
  destruct (reachable_inv skb st Hreach) as [Hrange Hmod].
  pose proof (ipv6_optlen_eq skb (offset st)) as Hlen.
  pose proof (nh_u8_range skb (offset st + 1)) as Hh.
  assert (Hadv8 : advanced mod 8 = 0).
  { subst advanced. rewrite Hlen, (Z.mul_comm 8), Z.mod_add by lia.
    exact Hmod. }
  assert (Hne : advanced <> IPV6_MAXPLEN).
  { intros Heq. rewrite Heq in Hadv8. vm_compute in Hadv8. discriminate. }
  assert (Hbody : loop_body skb st =
                  if advanced >=? IPV6_MAXPLEN then Return einval_maxplen
                  else Continue {| offset := advanced; nexthdr := offset st;
                                   found_rhdr := rhdr |}).
  { rewrite (loop_body_break skb st rhdr)
      by (try exact Hsw; unfold sizeof_ipv6hdr in Hrange; lia).
    destruct (Z.gtb_spec (offset st + sizeof_ipv6_opt_hdr) (packet_len skb));
      [ lia | ].
    subst advanced. rewrite (Z.add_comm (ipv6_optlen skb (offset st))).
    reflexivity. }
  assert (Hiff : loop_body skb st = Return einval_maxplen
                 <-> IPV6_MAXPLEN < advanced).
  { rewrite Hbody.
    destruct (Z.geb_spec advanced IPV6_MAXPLEN) as [Hge | Hlt].
    - split; [ intros _; lia | reflexivity ].
    - split; [ discriminate | lia ]. }
  split; [ exact Hiff | ]. split.
  - intros Hbig. split; [ | reflexivity ].
    apply (reachable_return skb st einval_maxplen Hreach Hin).
    apply Hiff. exact Hbig.
  - intros Hsmall. rewrite Hbody.
    destruct (Z.geb_spec advanced IPV6_MAXPLEN) as [Hge | Hlt];
      [ lia | reflexivity ].
Qed.

(** C5: in an iteration the walk reaches, whose [switch] continues, when the
    two-byte prefix of the header does not fit in the captured bytes
    ([offset + sizeof(struct ipv6_opt_hdr) > packet_len]) the function
    fails with [MalformedChain]: it returns [-EINVAL] through line 109,
    before the load of the header's length byte. *)
Theorem truncated_prefix_fails (skb : sk_buff) (st : walk_state)
    (rhdr : bool) :
  reachable skb st ->
  offset st <= packet_len skb ->
  switch_nexthdr skb st = sw_break rhdr ->
  packet_len skb < offset st + sizeof_ipv6_opt_hdr ->
  ip6_find_1stfragopt_traced skb = Some (einval_opt_hdr, nexthdr st)
  /\ error_kind einval_opt_hdr = Some MalformedChain
  /\ ip6_find_1stfragopt skb = Some (- EINVAL, nexthdr st).
Proof.
  intros Hreach Hin Hsw Hcut.
  destruct (reachable_inv skb st Hreach) as [Hrange _].
  assert (Hbody : loop_body skb st = Return einval_opt_hdr).
  { rewrite (loop_body_break skb st rhdr)
      by (try exact Hsw; unfold sizeof_ipv6hdr in Hrange; lia).
    destruct (Z.gtb_spec (offset st + sizeof_ipv6_opt_hdr) (packet_len skb));
      [ reflexivity | lia ]. }
  pose proof (reachable_return skb st einval_opt_hdr Hreach Hin Hbody) as Ht.
  split; [ exact Ht | ]. split; [ reflexivity | ].
  apply (traced_code skb _ _ Ht).
Qed.

(** C6: [ip6_find_1stfragopt] terminates on every packet.  With
    [walk_fuel skb] tests of the loop condition, and with any larger number,
    the loop reaches a [return]; every iteration that goes on adds to the
    offset the length of the header, which is at least 8, a length byte of 0
    giving exactly 8; and an iteration is only entered while the offset is
    at most the captured length. *)
Theorem find_1stfragopt_terminates (skb : sk_buff) :
  (exists r,
      ip6_find_1stfragopt_traced skb = Some r
      /\ forall fuel, (walk_fuel skb <= fuel)%nat ->
                      walk_loop fuel skb walk_init = Some r)
  /\ (forall st st',
         reachable skb st ->
         loop_body skb st = Continue st' ->
         offset st' = offset st + ipv6_optlen skb (offset st)
         /\ offset st + 8 <= offset st')
  /\ (forall st fuel,
         packet_len skb < offset st ->
         walk_loop (S fuel) skb st = Some (einval_packet_len, nexthdr st))
  /\ (forall off, 8 <= ipv6_optlen skb off)
  /\ (forall off, nh_u8 skb (off + 1) = 0 -> ipv6_optlen skb off = 8).
Proof.
  split; [ | split; [ | split; [ | split ] ] ].
  - destruct (traced_total skb) as [r Hr]. exists r.
    split; [ exact Hr | ].
    intros fuel Hle. apply (walk_loop_mono skb (walk_fuel skb) fuel _ _ Hr Hle).
  - intros st st' Hreach Hb.
    pose proof (reachable_inv skb st Hreach) as Hinv.
    destruct (walk_inv_step skb st st' Hinv Hb) as [_ Hgrow].
    destruct Hinv as [Hrange _]. unfold sizeof_ipv6hdr in Hrange.
    destruct (loop_body_continue skb st st') as (Ho & _); [ lia | exact Hb | ].
    split; [ exact Ho | exact Hgrow ].
  - intros st fuel Hout. simpl. apply Z.leb_gt in Hout. rewrite Hout.
    reflexivity.
  - intros off. apply (ipv6_optlen_range skb off).
  - intros off Hz. rewrite ipv6_optlen_eq, Hz. reflexivity.
Qed.

Lemma return_found_at (skb : sk_buff) (st : walk_state) (off : Z) :
  walk_inv st ->
  loop_body skb st = Return (found_at off) ->
  off = offset st.
Proof.
  intros [Hrange _] Hb. unfold sizeof_ipv6hdr in Hrange.
  destruct (switch_nexthdr skb st) as [rhdr | off'] eqn:Hsw.
  - rewrite (loop_body_break skb st rhdr) in Hb by (try exact Hsw; lia).
    destruct (_ >? _); [ discriminate | ].
    destruct (_ >=? _); discriminate.
  - destruct (loop_body_return skb st off' Hsw) as [_ Hr].
    rewrite Hr in Hb. injection Hb as <-. reflexivity.
Qed.

(** C10: [ip6_find_1stfragopt] has one failure value.  Its three failing
    [return] statements (the header prefix that cannot be read, the length
    that reaches [IPV6_MAXPLEN], the offset past the captured length) all
    yield [-EINVAL], whichever of [MalformedChain] and [LengthOverflow]
    they stand for; every other result is an offset between the base-header
    size and [IPV6_MAXPLEN], so a negative result is always [-EINVAL]. *)
Theorem failure_value_is_einval (skb : sk_buff) :
  exit_code einval_opt_hdr = - EINVAL
  /\ exit_code einval_maxplen = - EINVAL
  /\ exit_code einval_packet_len = - EINVAL
  /\ exists e nh,
      ip6_find_1stfragopt_traced skb = Some (e, nh)
      /\ ip6_find_1stfragopt skb = Some (exit_code e, nh)
      /\ match error_kind e with
         | Some _ => exit_code e = - EINVAL
         | None => sizeof_ipv6hdr <= exit_code e < IPV6_MAXPLEN
                   /\ e = found_at (exit_code e)
         end.
Proof.
  repeat (split; [ reflexivity | ]).
  destruct (traced_total skb) as [[e nh] Hr]. exists e, nh.
  split; [ exact Hr | ]. split; [ apply (traced_code skb e nh Hr) | ].
  destruct e as [off | | | ]; try reflexivity.
  unfold ip6_find_1stfragopt_traced in Hr.
  destruct (walk_loop_exit_from skb _ _ _ _ (reach_init skb) Hr)
    as (st1 & Hreach & _ & [[_ Hb] | [_ Hbad]]); [ | discriminate ].
  pose proof (reachable_inv skb st1 Hreach) as Hinv.
  pose proof (return_found_at skb st1 off Hinv Hb) as ->.
  destruct Hinv as [Hrange _]. simpl.
  rewrite int_of_small
    by (unfold INT_MIN, INT_MAX, sizeof_ipv6hdr, IPV6_MAXPLEN in *; lia).
  split; [ exact Hrange | reflexivity ].
Qed.

Lemma walk_state_after_reachable (skb : sk_buff) (n : nat) :
  forall st, walk_state_after n skb = Some st -> reachable skb st.
Proof.
  induction n as [ | n IH]; intros st Hst.
  - injection Hst as <-. apply reach_init.
  - simpl in Hst.
    destruct (walk_state_after n skb) as [st0 | ]; [ | discriminate ].
    destruct (Z.leb_spec (offset st0) (packet_len skb)) as [Hin | ];
      [ | discriminate ].
    destruct (loop_body skb st0) as [ | st1] eqn:Hb; [ discriminate | ].
    injection Hst as <-.
    apply (reach_step skb st0 st1 (IH st0 eq_refl) Hin Hb).
Qed.

(** The loop, run on two packets with the same captured bytes. *)
Lemma walk_loop_same_captured (skb skb' : sk_buff) (fuel : nat) :
  CONFIG_IPV6_MIP6 = false ->
  same_captured skb skb' ->
  forall st,
    0 <= nexthdr st ->
    0 <= offset st < IPV6_MAXPLEN ->
    (offset st <= packet_len skb -> nexthdr st < packet_len skb) ->
    walk_loop fuel skb st = walk_loop fuel skb' st.
Proof.
  intros Hmip [Hlen Hbytes].
  induction fuel as [ | fuel IH]; intros st Hnh Hoff Hcap; [ reflexivity | ].
  simpl. rewrite <- Hlen.
  destruct (Z.leb_spec (offset st) (packet_len skb)) as [Hin | ];
    [ | reflexivity ].
  assert (Hsw : switch_nexthdr skb' st = switch_nexthdr skb st).
  { unfold switch_nexthdr. rewrite Hmip. simpl.
    rewrite (Hbytes (nexthdr st)) by (specialize (Hcap Hin); lia).
    reflexivity. }
  destruct (switch_nexthdr skb st) as [rhdr | off] eqn:Hsw0.
  - rewrite (loop_body_break skb st rhdr Hoff Hsw0).
    rewrite (loop_body_break skb' st rhdr Hoff Hsw).
    rewrite <- Hlen.
    destruct (Z.gtb_spec (offset st + sizeof_ipv6_opt_hdr) (packet_len skb))
      as [ | Hfit]; [ reflexivity | ].
    unfold sizeof_ipv6_opt_hdr in Hfit.
    assert (Hopt : ipv6_optlen skb' (offset st) = ipv6_optlen skb (offset st)).
    { unfold ipv6_optlen. rewrite (Hbytes (offset st + 1)) by lia.
      reflexivity. }
    rewrite Hopt.
    destruct (Z.geb_spec (ipv6_optlen skb (offset st) + offset st)
                IPV6_MAXPLEN); [ reflexivity | ].
    pose proof (ipv6_optlen_range skb (offset st)).
    apply IH; simpl; lia.
  - destruct (loop_body_return skb st off Hsw0) as [_ ->].
    destruct (loop_body_return skb' st off Hsw) as [_ ->].
    reflexivity.
Qed.

(** X10: the bytes the walk reads lie inside the captured region: in a
    kernel built without the mobility extension, two packets with the same
    captured bytes get the same result, whatever follows the tail. *)
Lemma find_1stfragopt_same_captured (skb skb' : sk_buff) :
  CONFIG_IPV6_MIP6 = false ->
  same_captured skb skb' ->
  ip6_find_1stfragopt skb = ip6_find_1stfragopt skb'.
Proof.
  intros Hmip Hsame.
  unfold ip6_find_1stfragopt, ip6_find_1stfragopt_traced, walk_fuel.
  pose proof Hsame as [Hlen _]. rewrite <- Hlen.
  rewrite (walk_loop_same_captured skb skb' _ Hmip Hsame walk_init).
  - reflexivity.
  - simpl. unfold offsetof_nexthdr. lia.
  - simpl. unfold sizeof_ipv6hdr, IPV6_MAXPLEN. lia.
  - simpl. unfold sizeof_ipv6hdr, offsetof_nexthdr. lia.
Qed.

End WalkFacts.

(** ** The theorems on concrete packets *)

Ltac by_computation := vm_compute; first [ reflexivity | discriminate ].

Lemma select_ident_never_zero_witness :
  fst (fst (@__ipv6_select_ident kernel32 net_unset world32 addr_a addr_b))
  = 2 ^ 31
  /\ fst (fst (@__ipv6_select_ident kernel32 net_keyed world32_used
                 addr_a addr_b)) = 7.
Proof.
  split.
  - apply (proj1 (proj2 (select_ident_never_zero (K := kernel32)
                           net_unset world32 addr_a addr_b))).
    by_computation.
  - apply (proj2 (proj2 (select_ident_never_zero (K := kernel32)
                           net_keyed world32_used addr_a addr_b))).
    by_computation.
Defined.

Lemma hop_routing_dest_stops_at_dest_witness :
  @ip6_find_1stfragopt kernel32 pkt_hop_rt_dst = Some (56, 48).
Proof.
  apply (hop_routing_dest_stops_at_dest (K := kernel32) pkt_hop_rt_dst);
    try by_computation.
  left. reflexivity.
Defined.

Lemma hop_dest_walks_to_upper_witness :
  @ip6_find_1stfragopt kernel64_mip6 pkt_hop_dst = Some (56, 48).
Proof.
  apply (hop_dest_walks_to_upper (K := kernel64_mip6) pkt_hop_dst);
    by_computation.
Defined.

Lemma length_overflow_check_witness :
  @loop_body kernel32 pkt_hop_rt_dst walk_init
  = Continue {| offset := 48; nexthdr := 40; found_rhdr := false |}
  /\ @ip6_find_1stfragopt_traced kernel32 pkt_overlong
     = Some (einval_maxplen, 40 + 30 * 2048).
Proof.
  split.
  - apply (proj2 (proj2 (length_overflow_check (K := kernel32)
             pkt_hop_rt_dst walk_init false
             (reach_init pkt_hop_rt_dst)
             ltac:(by_computation) ltac:(by_computation)))).
    by_computation.
  - apply (proj1 (proj2 (length_overflow_check (K := kernel32)
             pkt_overlong overlong_last false
             (walk_state_after_reachable (K := kernel32) pkt_overlong 31
                overlong_last ltac:(by_computation))
             ltac:(by_computation) ltac:(by_computation)))).
    by_computation.
Defined.

Lemma truncated_prefix_fails_witness :
  @ip6_find_1stfragopt kernel32 pkt_truncated = Some (- EINVAL, 6).
Proof.
  apply (proj2 (proj2 (truncated_prefix_fails (K := kernel32)
           pkt_truncated walk_init false (reach_init pkt_truncated)
           ltac:(by_computation) ltac:(by_computation)
           ltac:(by_computation)))).
Defined.

Lemma find_1stfragopt_terminates_witness :
  offset walk_init + 8
  <= offset {| offset := 48; nexthdr := 40; found_rhdr := false |}
  /\ @walk_loop kernel32 1 pkt_short walk_init
     = Some (einval_packet_len, 6)
  /\ ipv6_optlen pkt_hop_rt_dst 40 = 8.
Proof.
  destruct (find_1stfragopt_terminates (K := kernel32) pkt_hop_rt_dst)
    as (_ & Hstep & _ & _ & Hzero).
  destruct (find_1stfragopt_terminates (K := kernel32) pkt_short)
    as (_ & _ & Hexit & _).
  split; [ | split ].
  - apply (Hstep walk_init _ (reach_init pkt_hop_rt_dst)). by_computation.
  - apply (Hexit walk_init 0%nat). by_computation.
  - apply Hzero. by_computation.
Defined.

(** Outside the range of the [int len] of line 126, on a packet object
    whose [len] is 2 GiB and more, the [int] is negative, the test of line
    129 is false and the low 16 bits of the difference, here 1, are what
    [htons] stores. *)
Lemma local_out_huge_len_not_zero :
  IPV6_MAXPLEN < skb_len skb_huge_len - sizeof_ipv6hdr
  /\ payload_len_field (snd (@__ip6_local_out kernel32 skb_huge_len))
     = [Byte.x00; Byte.x01]
  /\ payload_len_field (snd (@__ip6_local_out kernel32 skb_huge_len))
     <> htons 0.
Proof. split; [ | split ]; by_computation. Qed.

(** A payload of 65536 bytes, one above [IPV6_MAXPLEN], gets zero; a
    payload of exactly [IPV6_MAXPLEN] bytes and one of 32 bytes get their
    length. *)
Lemma local_out_payload_len_witness :
  (IPV6_MAXPLEN < skb_len pkt_jumbo - sizeof_ipv6hdr
   /\ payload_len_field (snd (@__ip6_local_out kernel32 pkt_jumbo))
      = [Byte.x00; Byte.x00])
  /\ (skb_len pkt_maxplen - sizeof_ipv6hdr = IPV6_MAXPLEN
      /\ payload_len_field (snd (@__ip6_local_out kernel32 pkt_maxplen))
         = [Byte.xff; Byte.xff]
      /\ ntoh [Byte.xff; Byte.xff] = IPV6_MAXPLEN)
  /\ (payload_len_field (snd (@__ip6_local_out kernel32 pkt_hop_rt_dst))
      = [Byte.x00; Byte.x20]
      /\ ntoh [Byte.x00; Byte.x20]
         = skb_len pkt_hop_rt_dst - sizeof_ipv6hdr).
Proof.
  pose proof (local_out_payload_len (K := kernel32) pkt_jumbo
                ltac:(split; by_computation)) as (_ & Hzero & _ & Hjumbo).
  pose proof (local_out_payload_len (K := kernel32) pkt_maxplen
                ltac:(split; by_computation)) as (_ & _ & Hmaxval & Hmax).
  pose proof (local_out_payload_len (K := kernel32) pkt_hop_rt_dst
                ltac:(split; by_computation)) as (_ & _ & Hval & Hfield).
  split; [ | split ].
  - split; [ by_computation | ].
    rewrite Hjumbo by by_computation. apply Hzero. by_computation.
  - split; [ by_computation | ]. split.
    + rewrite Hmax by by_computation. by_computation.
    + apply (Hmaxval ltac:(split; by_computation)).
  - split.
    + apply Hfield; by_computation.
    + apply Hval. split; by_computation.
Defined.

(** Two callers that overlap.  Caller 0 and caller 1 both test the
    all-zero seed (line 24); caller 0 stores its draw (lines 25 and 26)
    and the seed is no longer all-zero; caller 1, standing before its own
    store, then overwrites that seed with a second draw. *)
Lemma seed_overwritten_by_overlap :
  siphash_key_is_zero
    (ip_id_key (snd (fst (@run_schedule kernel32 [0; 1; 0]%nat two_callers
                            net_unset world32_two_draws)))) = false
  /\ option_map c_pc
       (nth_error (fst (fst (@run_schedule kernel32 [0; 1; 0]%nat
                               two_callers net_unset world32_two_draws)))
                  1)
     = Some at_fill
  /\ ip_id_key (snd (fst (@run_schedule kernel32 [0; 1; 0]%nat two_callers
                            net_unset world32_two_draws)))
     = repeat Byte.x5a 16
  /\ ip_id_key (snd (fst (@run_schedule kernel32 [0; 1; 0; 1]%nat
                            two_callers net_unset world32_two_draws)))
     = repeat Byte.xa5 16
  /\ ip_id_key (snd (fst (@run_schedule kernel32 [0; 1; 0; 1]%nat
                            two_callers net_unset world32_two_draws)))
     <> ip_id_key (snd (fst (@run_schedule kernel32 [0; 1; 0]%nat
                               two_callers net_unset world32_two_draws))).
Proof. repeat split; by_computation. Qed.

Lemma seed_kept_without_overlap_witness :
  ip_id_key
    (snd (fst (@run_schedule kernel32 (serial_schedule 0 3)
                 (fresh_callers [(addr_a, addr_b); (addr_b, addr_a);
                                 (addr_a, addr_b)])
                 net_keyed world32)))
  = ip_id_key net_keyed.
Proof.
  apply (proj1 (proj2 (proj2 (proj2
           (seed_kept_without_overlap (K := kernel32) net_keyed world32))))
           ltac:(by_computation)
           [(addr_a, addr_b); (addr_b, addr_a); (addr_a, addr_b)]).
Defined.

Lemma seed_filled_once_witness :
  ip_id_key (snd (fst (@select_idents kernel32 net_keyed world32
                         [(addr_a, addr_b); (addr_b, addr_a);
                          (addr_a, addr_b)])))
  = ip_id_key net_keyed.
Proof.
  apply (proj2 (seed_filled_once (K := kernel32) net_keyed world32)).
  by_computation.
Defined.

Lemma proxy_select_ident_short_packet_witness :
  @ipv6_proxy_select_ident kernel32 net_unset world32 pkt_short
  = (net_unset, world32, pkt_short).
Proof.
  apply (proj1 (proxy_select_ident_short_packet (K := kernel32)
                  net_unset world32 pkt_short
                  ltac:(intros (_ & H & _); apply Z.leb_le in H;
                        revert H; by_computation))).
Defined.

(** ** More on the extension-header walk *)

Section WalkMore.

Context {K : kernel}.

(** The state a successful walk stops in. *)
Lemma traced_found_state (skb : sk_buff) (off nh : Z) :
  ip6_find_1stfragopt_traced skb = Some (found_at off, nh) ->
  exists st,
    reachable skb st /\ nexthdr st = nh /\ offset st = off
    /\ offset st <= packet_len skb
    /\ switch_nexthdr skb st = sw_return off.
Proof.
  intros Hr. unfold ip6_find_1stfragopt_traced in Hr.
  destruct (walk_loop_exit_from skb _ _ _ _ (reach_init skb) Hr)
    as (st & Hreach & Hnh & [[Hin Hb] | [_ Hbad]]); [ | discriminate ].
  pose proof (reachable_inv skb st Hreach) as Hinv.
  pose proof (return_found_at skb st off Hinv Hb) as Hoff.
  exists st. repeat split; auto.
  destruct (switch_nexthdr skb st) as [rhdr | off'] eqn:Hsw.
  - destruct Hinv as [Hrange _]. unfold sizeof_ipv6hdr in Hrange.
    rewrite (loop_body_break skb st rhdr) in Hb by (try exact Hsw; lia).
    destruct (_ >? _); [ discriminate | ].
    destruct (_ >=? _); discriminate.
  - destruct (loop_body_return skb st off' Hsw) as [-> _].
    rewrite Hoff. reflexivity.
Qed.

(** A result that is not negative comes from a [return offset]. *)
Lemma find_nonneg_found (skb : sk_buff) (r nh : Z) :
  ip6_find_1stfragopt skb = Some (r, nh) ->
  0 <= r ->
  ip6_find_1stfragopt_traced skb = Some (found_at r, nh).
Proof.
  unfold ip6_find_1stfragopt. intros Hr Hpos.
  destruct (ip6_find_1stfragopt_traced skb) as [[e nh'] | ] eqn:Ht;
    [ | discriminate ].
  injection Hr as <- <-.
  destruct e as [off | | | ];
    try (simpl in Hpos; unfold EINVAL in Hpos; lia).
  destruct (traced_found_state skb off nh' Ht) as (st & Hreach & _ & Ho & _).
  destruct (reachable_inv skb st Hreach) as [Hrange _].
  simpl. rewrite int_of_small
    by (unfold INT_MIN, INT_MAX, sizeof_ipv6hdr, IPV6_MAXPLEN in *; lia).
  reflexivity.
Qed.

(** X1: a packet with fewer captured bytes than the base header gets
    [-EINVAL] from the [return] after the loop, and [*nexthdr] stays on the
    base header's "next header" field. *)
Theorem short_packet_einval (skb : sk_buff) :
  packet_len skb < sizeof_ipv6hdr ->
  ip6_find_1stfragopt_traced skb = Some (einval_packet_len, offsetof_nexthdr)
  /\ ip6_find_1stfragopt skb = Some (- EINVAL, offsetof_nexthdr).
Proof.
  intros Hshort.
  pose proof (reachable_loop_exit skb walk_init (reach_init skb) Hshort) as Ht.
  split; [ exact Ht | apply (traced_code skb _ _ Ht) ].
Qed.

(** X2: when the base header announces a type that is none of hop-by-hop,
    routing and destination options, and the base header is captured, the
    function returns the size of the base header and [*nexthdr] points at
    the base header's "next header" field. *)
Theorem no_ext_header_returns_base (skb : sk_buff) :
  sizeof_ipv6hdr <= packet_len skb ->
  nh_u8 skb offsetof_nexthdr <> NEXTHDR_HOP ->
  nh_u8 skb offsetof_nexthdr <> NEXTHDR_ROUTING ->
  nh_u8 skb offsetof_nexthdr <> NEXTHDR_DEST ->
  ip6_find_1stfragopt skb = Some (sizeof_ipv6hdr, offsetof_nexthdr).
Proof.
  intros Hlen H1 H2 H3.
  destruct (loop_body_return skb walk_init sizeof_ipv6hdr
              (switch_other skb walk_init H1 H2 H3)) as [_ Hb].
  pose proof (reachable_return skb walk_init _ (reach_init skb) Hlen Hb) as Ht.
  rewrite (traced_code skb _ _ Ht). reflexivity.
Qed.

(** X3: a result that is not negative is an offset inside the captured
    bytes: a multiple of 8, at least the size of the base header, at most
    [packet_len] and below [IPV6_MAXPLEN]. *)
Theorem found_offset_in_packet (skb : sk_buff) (r nh : Z) :
  ip6_find_1stfragopt skb = Some (r, nh) ->
  0 <= r ->
  sizeof_ipv6hdr <= r <= packet_len skb
  /\ r < IPV6_MAXPLEN
  /\ r mod 8 = 0.
Proof.
  intros Hr Hpos.
  pose proof (find_nonneg_found skb r nh Hr Hpos) as Ht.
  destruct (traced_found_state skb r nh Ht)
    as (st & Hreach & _ & Ho & Hin & _).
  destruct (reachable_inv skb st Hreach) as [Hrange Hmod].
  rewrite Ho in *. repeat split; solve [ lia | exact Hmod ].
Qed.

(** Where [*nexthdr] points at the head of an iteration: at the base
    header's field before the first header, afterwards at the first byte of
    the header that ends at the current offset. *)
Lemma reachable_nexthdr (skb : sk_buff) (st : walk_state) :
  reachable skb st ->
  (nexthdr st = offsetof_nexthdr /\ offset st = sizeof_ipv6hdr)
  \/ (sizeof_ipv6hdr <= nexthdr st
      /\ nexthdr st + sizeof_ipv6_opt_hdr <= packet_len skb
      /\ offset st = nexthdr st + ipv6_optlen skb (nexthdr st)).
Proof.
  induction 1 as [ | st st' Hreach _ Hin Hb].
  - left. split; reflexivity.
  - right.
    destruct (reachable_inv skb st Hreach) as [Hrange _].
    destruct (loop_body_continue skb st st') as (Ho & Hn & Hfit & _);
      [ unfold sizeof_ipv6hdr in Hrange; lia | exact Hb | ].
    rewrite Hn, Ho. repeat split; solve [ lia | exact Hfit ].
Qed.

Lemma switch_return_type (skb : sk_buff) (st : walk_state) (off : Z) :
  switch_nexthdr skb st = sw_return off ->
  nh_u8 skb (nexthdr st) <> NEXTHDR_HOP
  /\ nh_u8 skb (nexthdr st) <> NEXTHDR_ROUTING
  /\ (nh_u8 skb (nexthdr st) = NEXTHDR_DEST -> found_rhdr st = true).
Proof.
  unfold switch_nexthdr. intros Hsw.
  destruct (Z.eqb_spec (nh_u8 skb (nexthdr st)) NEXTHDR_HOP) as [ | H1];
    [ discriminate | ].
  destruct (Z.eqb_spec (nh_u8 skb (nexthdr st)) NEXTHDR_ROUTING) as [ | H2];
    [ discriminate | ].
  repeat split; auto. intros Hd.
  apply Z.eqb_eq in Hd. rewrite Hd in Hsw.
  destruct (CONFIG_IPV6_MIP6 && _); [ discriminate | ].
  destruct (found_rhdr st); [ reflexivity | discriminate ].
Qed.

(** X4: on success [*nexthdr] is the "next header" field just before the
    returned offset: the field of the base header when the offset is the
    base-header size, otherwise the first byte of a captured extension
    header that ends exactly at the returned offset.  The type stored there
    is never hop-by-hop or routing. *)
Theorem found_nexthdr_precedes (skb : sk_buff) (r nh : Z) :
  ip6_find_1stfragopt skb = Some (r, nh) ->
  0 <= r ->
  ((nh = offsetof_nexthdr /\ r = sizeof_ipv6hdr)
   \/ (sizeof_ipv6hdr <= nh
       /\ nh + sizeof_ipv6_opt_hdr <= packet_len skb
       /\ r = nh + ipv6_optlen skb nh))
  /\ nh_u8 skb nh <> NEXTHDR_HOP
  /\ nh_u8 skb nh <> NEXTHDR_ROUTING.
Proof.
  intros Hr Hpos.
  pose proof (find_nonneg_found skb r nh Hr Hpos) as Ht.
  destruct (traced_found_state skb r nh Ht)
    as (st & Hreach & Hn & Ho & _ & Hsw).
  pose proof (reachable_nexthdr skb st Hreach) as Hpos'.
  destruct (switch_return_type skb st r Hsw) as (H1 & H2 & _).
  rewrite Hn, Ho in *. auto.
Qed.


Lemma reachable_after (skb : sk_buff) (st : walk_state) :
  reachable skb st -> exists n, walk_state_after n skb = Some st.
Proof.
  induction 1 as [ | st st' _ [n Hn] Hin Hb].
  - exists 0%nat. reflexivity.
  - exists (S n). simpl. rewrite Hn.
    apply Z.leb_le in Hin. rewrite Hin, Hb. reflexivity.
Qed.

Lemma after_step (skb : sk_buff) (n : nat) (st' : walk_state) :
  walk_state_after (S n) skb = Some st' ->
  exists st,
    walk_state_after n skb = Some st
    /\ offset st <= packet_len skb
    /\ loop_body skb st = Continue st'.
Proof.
  simpl. intros H.
  destruct (walk_state_after n skb) as [st | ]; [ | discriminate ].
  destruct (Z.leb_spec (offset st) (packet_len skb)); [ | discriminate ].
  destruct (loop_body skb st) as [ | st1] eqn:Hb; [ discriminate | ].
  injection H as <-. exists st. auto.
Qed.

(** The flag after a continuing iteration. *)
Lemma continue_found_rhdr (skb : sk_buff) (st st' : walk_state) :
  loop_body skb st = Continue st' ->
  found_rhdr st'
  = found_rhdr st || (nh_u8 skb (nexthdr st) =? NEXTHDR_ROUTING).
Proof.
  unfold loop_body. intros Hb.
  destruct (switch_nexthdr skb st) as [rhdr | ] eqn:Hsw; [ | discriminate ].
  destruct (_ >? _); [ discriminate | ].
  destruct (_ >=? _); [ discriminate | ].
  injection Hb as <-. simpl.
  unfold switch_nexthdr in Hsw.
  destruct (Z.eqb_spec (nh_u8 skb (nexthdr st)) NEXTHDR_HOP) as [E0 | _].
  - rewrite E0. injection Hsw as <-. simpl. rewrite orb_false_r.
    reflexivity.
  - destruct (nh_u8 skb (nexthdr st) =? NEXTHDR_ROUTING).
    + injection Hsw as <-. rewrite orb_true_r. reflexivity.
    + rewrite orb_false_r.
      destruct (nh_u8 skb (nexthdr st) =? NEXTHDR_DEST); [ | discriminate ].
      destruct (CONFIG_IPV6_MIP6 && _);
        [ injection Hsw as <-; reflexivity | ].
      destruct (found_rhdr st); [ discriminate | ].
      injection Hsw as <-. reflexivity.
Qed.

Lemma found_rhdr_iff (skb : sk_buff) (n : nat) :
  forall st,
    walk_state_after n skb = Some st ->
    (found_rhdr st = true
     <-> exists k st0,
          (k < n)%nat
          /\ walk_state_after k skb = Some st0
          /\ nh_u8 skb (nexthdr st0) = NEXTHDR_ROUTING).
Proof.
  induction n as [ | n IH]; intros st Hst.
  - injection Hst as <-. split.
    + discriminate.
    + intros (k & _ & Hk & _). inversion Hk.
  - destruct (after_step skb n st Hst) as (st0 & Hn & _ & Hb).
    rewrite (continue_found_rhdr skb st0 st Hb).
    rewrite orb_true_iff, (IH st0 Hn), Z.eqb_eq. split.
    + intros [(k & stk & Hlt & Hk & Ht) | Ht].
      * exists k, stk. auto.
      * exists n, st0. auto.
    + intros (k & stk & Hlt & Hk & Ht).
      destruct (Nat.eq_dec k n) as [-> | Hne].
      * right. congruence.
      * left. exists k, stk. split; [ lia | auto ].
Qed.

(** X5: at the head of every iteration [found_rhdr] is set exactly when
    one of the earlier iterations met the routing type: the flag is never
    set for another reason and never cleared. *)
Theorem found_rhdr_exact (skb : sk_buff) (n : nat) (st : walk_state) :
  walk_state_after n skb = Some st ->
  (found_rhdr st = true
   <-> exists k st0,
        (k < n)%nat
        /\ walk_state_after k skb = Some st0
        /\ nh_u8 skb (nexthdr st0) = NEXTHDR_ROUTING).
Proof. apply found_rhdr_iff. Qed.

Lemma after_offset_mono (skb : sk_buff) (n : nat) :
  forall k a b,
    (k < n)%nat ->
    walk_state_after k skb = Some a ->
    walk_state_after n skb = Some b ->
    offset a < offset b.
Proof.
  induction n as [ | n IH]; intros k a b Hlt Ha Hb; [ inversion Hlt | ].
  destruct (after_step skb n b Hb) as (st & Hn & _ & Hstep).
  pose proof (walk_state_after_reachable skb n st Hn) as Hreach.
  destruct (walk_inv_step skb st b (reachable_inv skb st Hreach) Hstep)
    as [_ Hgrow].
  destruct (Nat.eq_dec k n) as [-> | Hne].
  - assert (a = st) by congruence. subst a. lia.
  - pose proof (IH k a st ltac:(lia) Ha Hn). lia.
Qed.

(** X6: when the function stops at a destination-options header (the type
    stored at [*nexthdr] is destination options), an earlier iteration, at
    a smaller offset, met the routing type. *)
Theorem stop_at_dest_has_routing (skb : sk_buff) (r nh : Z) :
  ip6_find_1stfragopt skb = Some (r, nh) ->
  0 <= r ->
  nh_u8 skb nh = NEXTHDR_DEST ->
  exists k st0,
    walk_state_after k skb = Some st0
    /\ offset st0 < r
    /\ nh_u8 skb (nexthdr st0) = NEXTHDR_ROUTING.
Proof.
  intros Hr Hpos Hdest.
  pose proof (find_nonneg_found skb r nh Hr Hpos) as Ht.
  destruct (traced_found_state skb r nh Ht)
    as (st & Hreach & Hn & Ho & _ & Hsw).
  destruct (switch_return_type skb st r Hsw) as (_ & _ & Hflag).
  rewrite Hn in Hflag. specialize (Hflag Hdest).
  destruct (reachable_after skb st Hreach) as [n Hafter].
  destruct (proj1 (found_rhdr_iff skb n st Hafter) Hflag)
    as (k & st0 & Hlt & Hk & Hty).
  exists k, st0. repeat split; auto.
  rewrite <- Ho. apply (after_offset_mono skb n k st0 st Hlt Hk Hafter).
Qed.

(** X7: after a routing header, at any depth of the chain, the first
    destination-options header without a home-address option is where the
    walk stops: if an earlier iteration met the routing type and the
    current type is destination options, the function returns the current
    offset and the current [*nexthdr]. *)
Theorem dest_after_routing_stops (skb : sk_buff) (n : nat)
    (st : walk_state) :
  walk_state_after n skb = Some st ->
  (exists k st0,
      (k < n)%nat
      /\ walk_state_after k skb = Some st0
      /\ nh_u8 skb (nexthdr st0) = NEXTHDR_ROUTING) ->
  nh_u8 skb (nexthdr st) = NEXTHDR_DEST ->
  offset st <= packet_len skb ->
  CONFIG_IPV6_MIP6 = false
  \/ ipv6_find_tlv skb (offset st) IPV6_TLV_HAO < 0 ->
  ip6_find_1stfragopt skb = Some (offset st, nexthdr st).
Proof.
  intros Hafter Hrouting Hdest Hin Hhao.
  pose proof (walk_state_after_reachable skb n st Hafter) as Hreach.
  destruct (reachable_inv skb st Hreach) as [Hrange _].
  assert (Hint : int_of (offset st) = offset st).
  { apply int_of_small.
    unfold INT_MIN, INT_MAX, sizeof_ipv6hdr, IPV6_MAXPLEN in *. lia. }
  pose proof (proj2 (found_rhdr_iff skb n st Hafter) Hrouting) as Hflag.
  destruct (loop_body_return skb st (offset st)) as [_ Hb].
  { apply (switch_dest_after_routing skb st Hdest Hflag).
    rewrite Hint. exact Hhao. }
  pose proof (reachable_return skb st _ Hreach Hin Hb) as Ht.
  rewrite (traced_code skb _ _ Ht). simpl. rewrite Hint. reflexivity.
Qed.

(** X8: the mobility exception.  In a kernel built with
    [CONFIG_IPV6_MIP6], a destination-options header in which
    [ipv6_find_tlv] finds a home-address option is walked past even after a
    routing header: for routing, such a destination-options header, then
    another type, the function returns the offset after the
    destination-options header. *)
Theorem routing_dest_hao_walks_on (skb : sk_buff) :
  let rt := sizeof_ipv6hdr in
  let dst := rt + ipv6_optlen skb rt in
  let upper := dst + ipv6_optlen skb dst in
  CONFIG_IPV6_MIP6 = true ->
  nh_u8 skb offsetof_nexthdr = NEXTHDR_ROUTING ->
  rt + sizeof_ipv6_opt_hdr <= packet_len skb ->
  nh_u8 skb rt = NEXTHDR_DEST ->
  dst + sizeof_ipv6_opt_hdr <= packet_len skb ->
  0 <= ipv6_find_tlv skb dst IPV6_TLV_HAO ->
  nh_u8 skb dst <> NEXTHDR_HOP ->
  nh_u8 skb dst <> NEXTHDR_ROUTING ->
  nh_u8 skb dst <> NEXTHDR_DEST ->
  upper <= packet_len skb ->
  ip6_find_1stfragopt skb = Some (upper, dst).
Proof.
  intros rt dst upper Hmip Hbase Hrt_fit Hrt Hdst_fit Hhao Hu1 Hu2 Hu3 Hup.
  pose proof (ipv6_optlen_range skb rt) as Hl1.
  pose proof (ipv6_optlen_range skb dst) as Hl2.
  assert (Hrt40 : rt = 40) by reflexivity.
  unfold sizeof_ipv6_opt_hdr in *.
  set (st1 := {| offset := dst; nexthdr := rt; found_rhdr := true |}).
  set (st2 := {| offset := upper; nexthdr := dst; found_rhdr := true |}).
  assert (Hb0 : loop_body skb walk_init = Continue st1).
  { apply (loop_body_advance skb walk_init true).
    - simpl. lia.
    - apply switch_routing. exact Hbase.
    - exact Hrt_fit.
    - change (offset walk_init) with rt. unfold IPV6_MAXPLEN. lia. }
  assert (Hsw1 : switch_nexthdr skb st1 = sw_break true).
  { unfold switch_nexthdr. change (nexthdr st1) with rt. rewrite Hrt.
    change (offset st1) with dst.
    rewrite int_of_small by (unfold INT_MIN, INT_MAX; lia).
    apply Z.leb_le in Hhao. rewrite Hmip, Hhao. reflexivity. }
  assert (Hb1 : loop_body skb st1 = Continue st2).
  { apply (loop_body_advance skb st1 true).
    - simpl. lia.
    - exact Hsw1.
    - exact Hdst_fit.
    - change (offset st1) with dst. unfold IPV6_MAXPLEN. lia. }
  assert (Hb2 : loop_body skb st2 = Return (found_at upper)).
  { apply (loop_body_return skb st2 upper).
    apply (switch_other skb st2 Hu1 Hu2 Hu3). }
  assert (Hr1 : reachable skb st1).
  { apply (reach_step skb walk_init st1 (reach_init skb)); [ | exact Hb0 ].
    change (offset walk_init) with rt. lia. }
  assert (Hr2 : reachable skb st2).
  { apply (reach_step skb st1 st2 Hr1); [ | exact Hb1 ].
    change (offset st1) with dst. lia. }
  pose proof (reachable_return skb st2 (found_at upper) Hr2 Hup Hb2) as Ht.
  rewrite (traced_code skb _ _ Ht). simpl.
  rewrite int_of_small by (unfold INT_MIN, INT_MAX; lia). reflexivity.
Qed.


(** Two buffers that agree up to the tail hold the same captured bytes. *)
Lemma same_captured_prefix (skb skb' : sk_buff) :
  skb_network_header skb' = skb_network_header skb ->
  0 <= skb_network_header skb ->
  packet_len skb' = packet_len skb ->
  firstn (Z.to_nat (skb_network_header skb + packet_len skb)) (skb_head skb')
  = firstn (Z.to_nat (skb_network_header skb + packet_len skb))
           (skb_head skb) ->
  same_captured skb skb'.
Proof.
  intros Hnh Hpos Hlen Hpre. split; [ symmetry; exact Hlen | ].
  intros pos Hin. unfold nh_u8, buf_byte. rewrite Hnh. f_equal.
  set (m := Z.to_nat (skb_network_header skb + packet_len skb)) in *.
  set (i := Z.to_nat (skb_network_header skb + pos)).
  assert (Hi : (i <? m)%nat = true).
  { apply Nat.ltb_lt. subst i m. apply Z2Nat.inj_lt; lia. }
  pose proof (nth_firstn m (skb_head skb) i Byte.x00) as H1.
  pose proof (nth_firstn m (skb_head skb') i Byte.x00) as H2.
  rewrite Hi in H1, H2. rewrite <- H1, <- H2, Hpre. reflexivity.
Qed.

(** The walk of [skb], replayed on a packet with the same bytes before the
    offset [r] that the walk returns. *)
Lemma walk_loop_prefix (skb skb' : sk_buff) (r nh : Z) (fuel : nat) :
  CONFIG_IPV6_MIP6 = false ->
  r <= packet_len skb' ->
  (forall pos, 0 <= pos < r -> nh_u8 skb' pos = nh_u8 skb pos) ->
  forall st,
    walk_inv st ->
    0 <= nexthdr st < offset st ->
    walk_loop fuel skb st = Some (found_at r, nh) ->
    offset st <= r /\ walk_loop fuel skb' st = Some (found_at r, nh).
Proof.
  intros Hmip Hlen' Hbytes.
  induction fuel as [ | fuel IH]; intros st Hinv Hnh Hr; [ discriminate | ].
  simpl in Hr.
  destruct (Z.leb_spec (offset st) (packet_len skb)) as [Hin | ];
    [ | discriminate ].
  assert (Hoff : 0 <= offset st < IPV6_MAXPLEN)
    by (destruct Hinv as [Hrange _]; unfold sizeof_ipv6hdr in Hrange; lia).
  assert (Hsw_eq : offset st <= r ->
                   switch_nexthdr skb' st = switch_nexthdr skb st).
  { intros Hle. unfold switch_nexthdr. rewrite Hmip. simpl.
    rewrite (Hbytes (nexthdr st)) by lia. reflexivity. }
  destruct (loop_body skb st) as [e | st1] eqn:Hb.
  - injection Hr as -> <-.
    pose proof (return_found_at skb st r Hinv Hb) as ->.
    split; [ lia | ].
    destruct (switch_nexthdr skb st) as [rhdr | off] eqn:Hsw.
    + rewrite (loop_body_break skb st rhdr Hoff Hsw) in Hb.
      destruct (_ >? _); [ discriminate | ].
      destruct (_ >=? _); discriminate.
    + destruct (loop_body_return skb' st off) as [_ Hb'].
      { apply Hsw_eq. lia. }
      simpl. apply Z.leb_le in Hlen'. rewrite Hlen', Hb'. reflexivity.
  - destruct (walk_inv_step skb st st1 Hinv Hb) as [Hinv1 Hgrow].
    destruct (loop_body_continue skb st st1 Hoff Hb) as (Ho & Hn & _ & _).
    destruct (IH st1 Hinv1 ltac:(lia) Hr) as [Hle1 Hr'].
    split; [ lia | ].
    destruct (switch_nexthdr skb st) as [rhdr | off] eqn:Hsw.
    + assert (Hopt : ipv6_optlen skb' (offset st)
                     = ipv6_optlen skb (offset st)).
      { unfold ipv6_optlen. rewrite (Hbytes (offset st + 1)) by lia.
        reflexivity. }
      pose proof Hb as Hb0.
      rewrite (loop_body_break skb st rhdr Hoff Hsw) in Hb0.
      destruct (_ >? _); [ discriminate | ].
      assert (Hb' : loop_body skb' st = Continue st1).
      { rewrite (loop_body_break skb' st rhdr Hoff)
          by (apply Hsw_eq; lia).
        destruct (Z.gtb_spec (offset st + sizeof_ipv6_opt_hdr)
                    (packet_len skb'));
          [ unfold sizeof_ipv6_opt_hdr in *; lia | ].
        rewrite Hopt. exact Hb0. }
      simpl.
      assert (Hin' : (offset st <=? packet_len skb') = true)
        by (apply Z.leb_le; lia).
      rewrite Hin', Hb'. exact Hr'.
    + destruct (loop_body_return skb st off Hsw) as [_ Hret].
      rewrite Hret in Hb. discriminate.
Qed.

(** X9: in a kernel built without the mobility extension a successful
    result depends only on the bytes before the returned offset: any packet
    that agrees with this one on those bytes and has at least that many
    captured bytes gets the same offset and the same [*nexthdr]. *)
Theorem found_depends_on_prefix (skb skb' : sk_buff) (r nh : Z) :
  CONFIG_IPV6_MIP6 = false ->
  ip6_find_1stfragopt skb = Some (r, nh) ->
  0 <= r ->
  r <= packet_len skb' ->
  (forall pos, 0 <= pos < r -> nh_u8 skb' pos = nh_u8 skb pos) ->
  ip6_find_1stfragopt skb' = Some (r, nh).
Proof.
  intros Hmip Hr Hpos Hlen' Hbytes.
  pose proof (find_nonneg_found skb r nh Hr Hpos) as Ht.
  unfold ip6_find_1stfragopt_traced in Ht.
  destruct (walk_loop_prefix skb skb' r nh _ Hmip Hlen' Hbytes walk_init
              walk_inv_init ltac:(simpl; unfold offsetof_nexthdr,
                                    sizeof_ipv6hdr; lia) Ht) as [_ Ht'].
  pose proof (walk_loop_traced skb' _ _ Ht') as Htr.
  pose proof (traced_code skb' _ _ Htr) as Hc. rewrite Hc. simpl.
  destruct (traced_found_state skb r nh
              (find_nonneg_found skb r nh Hr Hpos))
    as (st & Hreach & _ & Ho & _).
  destruct (reachable_inv skb st Hreach) as [Hrange _].
  rewrite int_of_small
    by (unfold INT_MIN, INT_MAX, sizeof_ipv6hdr, IPV6_MAXPLEN in *; lia).
  reflexivity.
Qed.

End WalkMore.

(** ** More on identifier generation *)

Lemma ntoh_htonl (v : Z) : 0 <= v < 2 ^ 32 -> ntoh (htonl v) = v.
Proof.
  intros H. unfold ntoh, htonl. rewrite (u32_small v H).
  cbn [be_value_acc].
  rewrite !byte.unsigned_of_Z. unfold byte.wrap.
  rewrite !Z.shiftr_div_pow2 by lia.
  assert (E16 : v / 2 ^ 16 = v / 2 ^ 8 / 2 ^ 8)
    by (rewrite Z.div_div by lia; reflexivity).
  assert (E24 : v / 2 ^ 24 = v / 2 ^ 8 / 2 ^ 8 / 2 ^ 8)
    by (rewrite !Z.div_div by lia; reflexivity).
  rewrite E16, E24.
  set (q1 := v / 2 ^ 8). set (q2 := q1 / 2 ^ 8). set (q3 := q2 / 2 ^ 8).
  pose proof (Z.div_mod v (2 ^ 8) ltac:(lia)) as E0. fold q1 in E0.
  pose proof (Z.div_mod q1 (2 ^ 8) ltac:(lia)) as E1. fold q2 in E1.
  pose proof (Z.div_mod q2 (2 ^ 8) ltac:(lia)) as E2. fold q3 in E2.
  pose proof (Z.mod_pos_bound v (2 ^ 8) ltac:(lia)).
  pose proof (Z.mod_pos_bound q1 (2 ^ 8) ltac:(lia)).
  pose proof (Z.mod_pos_bound q2 (2 ^ 8) ltac:(lia)).
  assert (0 <= q3 < 2 ^ 8) by lia.
  rewrite (Z.mod_small q3) by lia. lia.
Qed.

Section IdentMore.

Context {K : kernel}.

Lemma select_ident_world (n : net) (w : world) (dst src : in6_addr) :
  w_entropy (snd (__ipv6_select_ident n w dst src))
  = snd (ip_id_key_fill n (w_entropy w)).
Proof.
  unfold __ipv6_select_ident.
  destruct (ip_id_key_fill n (w_entropy w)) as [n' ent']. simpl.
  destruct (ip_idents_reserve (w_idents w) (ident_hash n' dst src) 1)
    as [id ids']. reflexivity.
Qed.

Lemma select_ident_range (n : net) (w : world) (dst src : in6_addr) :
  0 <= reserved_id n w dst src < 2 ^ 32 ->
  0 < fst (fst (__ipv6_select_ident n w dst src)) < 2 ^ 32.
Proof.
  intros Hr. rewrite select_ident_id. unfold ident_nonzero.
  destruct (Z.eqb_spec (reserved_id n w dst src) 0) as [_ | Hne].
  - vm_compute. split; reflexivity.
  - lia.
Qed.

(** X11: when the identifier table hands out values of type [u32],
    [ipv6_select_ident] stores in the fragment header, in network byte
    order, exactly the identifier of [__ipv6_select_ident] for the route's
    destination and source: the field decodes to it, is never zero, and the
    other fields of the fragment header are untouched. *)
Theorem select_ident_on_wire (n : net) (w : world) (fhdr : frag_hdr)
    (rt : rt6_info) :
  let sel := __ipv6_select_ident n w (rt6i_dst rt) (rt6i_src rt) in
  let res := ipv6_select_ident n w fhdr rt in
  0 <= reserved_id n w (rt6i_dst rt) (rt6i_src rt) < 2 ^ 32 ->
  ntoh (identification (snd res)) = fst (fst sel)
  /\ ntoh (identification (snd res)) <> 0
  /\ fh_nexthdr (snd res) = fh_nexthdr fhdr
  /\ fh_frag_off (snd res) = fh_frag_off fhdr
  /\ fst res = (snd (fst sel), snd sel).
Proof.
  intros sel res Hr.
  pose proof (select_ident_range n w _ _ Hr) as Hid. fold sel in Hid.
  subst res. unfold ipv6_select_ident. fold sel.
  destruct sel as [[id n'] w'].
  cbn [fst snd identification fh_nexthdr fh_frag_off] in *.
  rewrite ntoh_htonl by lia. repeat split; try reflexivity. lia.
Qed.

Lemma header_pointer_some (skb : sk_buff) :
  proxy_addrs_captured skb ->
  skb_header_pointer skb (int_of (skb_network_offset skb + offsetof_saddr))
                     (2 * sizeof_in6_addr)
  = Some (slice (Z.to_nat (proxy_addrs_pos skb))
                (Z.to_nat (2 * sizeof_in6_addr)) (skb_head skb)).
Proof.
  intros (H0 & H1 & H2). unfold skb_header_pointer.
  fold (proxy_addrs_pos skb).
  apply Z.leb_le in H0, H1, H2. rewrite H0, H1, H2. reflexivity.
Qed.

Lemma proxy_select_ident_some (n : net) (w : world) (skb : sk_buff) :
  let sel := __ipv6_select_ident n w (pkt_daddr skb) (pkt_saddr skb) in
  proxy_addrs_captured skb ->
  ipv6_proxy_select_ident n w skb
  = (snd (fst sel), snd sel, set_ip6_frag_id skb (htonl (fst (fst sel)))).
Proof.
  intros sel Hcap. unfold ipv6_proxy_select_ident.
  rewrite (header_pointer_some skb Hcap).
  destruct Hcap as (Hpos & _ & _).
  assert (Hs : {| s6_addr := firstn (Z.to_nat sizeof_in6_addr)
                    (slice (Z.to_nat (proxy_addrs_pos skb))
                       (Z.to_nat (2 * sizeof_in6_addr)) (skb_head skb)) |}
               = pkt_saddr skb).
  { unfold pkt_saddr, slice. f_equal. rewrite firstn_firstn. f_equal. }
  assert (Hd : {| s6_addr := skipn (Z.to_nat sizeof_in6_addr)
                    (slice (Z.to_nat (proxy_addrs_pos skb))
                       (Z.to_nat (2 * sizeof_in6_addr)) (skb_head skb)) |}
               = pkt_daddr skb).
  { unfold pkt_daddr, slice. f_equal.
    rewrite skipn_firstn_comm, skipn_skipn.
    unfold sizeof_in6_addr. rewrite Z2Nat.inj_add by lia.
    rewrite (Nat.add_comm (Z.to_nat 16)). reflexivity. }
  rewrite Hs, Hd. fold sel. destruct sel as [[id n'] w']. reflexivity.
Qed.

(** X12: when the captured bytes cover the two addresses,
    [ipv6_proxy_select_ident] generates the identifier for the packet's
    destination address (the second address of the region) and source
    address (the first), stores it in network byte order in [ip6_frag_id]
    and changes nothing else of the packet. *)
Theorem proxy_select_ident_captured (n : net) (w : world) (skb : sk_buff) :
  let sel := __ipv6_select_ident n w (pkt_daddr skb) (pkt_saddr skb) in
  proxy_addrs_captured skb ->
  ipv6_proxy_select_ident n w skb
  = (snd (fst sel), snd sel, set_ip6_frag_id skb (htonl (fst (fst sel)))).
Proof. apply proxy_select_ident_some. Qed.

(** X13: the two paths agree.  For a route whose destination and source
    are the addresses of the packet, the proxy path puts into
    [ip6_frag_id] the bytes that the routed path puts into the fragment
    header, and both leave the namespace, the random source and the
    identifier table in the same state. *)
Theorem proxy_and_routed_agree (n : net) (w : world) (skb : sk_buff)
    (fhdr : frag_hdr) (rt : rt6_info) :
  proxy_addrs_captured skb ->
  rt6i_dst rt = pkt_daddr skb ->
  rt6i_src rt = pkt_saddr skb ->
  skb_ip6_frag_id (snd (ipv6_proxy_select_ident n w skb))
  = identification (snd (ipv6_select_ident n w fhdr rt))
  /\ fst (ipv6_proxy_select_ident n w skb)
     = fst (ipv6_select_ident n w fhdr rt).
Proof.
  intros Hcap Hdst Hsrc.
  rewrite (proxy_select_ident_some n w skb Hcap).
  unfold ipv6_select_ident. rewrite Hdst, Hsrc.
  destruct (__ipv6_select_ident n w (pkt_daddr skb) (pkt_saddr skb))
    as [[id n'] w']. split; reflexivity.
Qed.

Lemma select_idents_keep_entropy (calls : list (in6_addr * in6_addr)) :
  forall (n : net) (w : world),
    siphash_key_is_zero (ip_id_key n) = false ->
    w_entropy (snd (select_idents n w calls)) = w_entropy w.
Proof.
  induction calls as [ | [dst src] calls IH]; intros n w Hkey.
  - reflexivity.
  - simpl.
    pose proof (select_ident_net n w dst src) as Hn.
    pose proof (select_ident_world n w dst src) as Hw.
    rewrite (key_fill_nonzero n (w_entropy w) Hkey) in Hn, Hw.
    simpl in Hn, Hw.
    destruct (__ipv6_select_ident n w dst src) as [[id n1] w1].
    simpl in Hn, Hw. subst n1.
    specialize (IH n w1 Hkey).
    destruct (select_idents n w1 calls) as [[ids n2] w2].
    simpl in *. congruence.
Qed.

(** X14: the seed is drawn once.  When the stored seed is all-zero and the
    random source delivers bytes that are not all zero, then after any
    sequence of one or more calls the seed is those bytes and the random
    source is in the state the single draw left it in. *)
Theorem seed_drawn_once (n : net) (w : world) (dst src : in6_addr)
    (calls : list (in6_addr * in6_addr)) :
  let drawn := get_random_bytes (w_entropy w) sizeof_siphash_key_t in
  let res := select_idents n w ((dst, src) :: calls) in
  siphash_key_is_zero (ip_id_key n) = true ->
  siphash_key_is_zero (fst drawn) = false ->
  ip_id_key (snd (fst res)) = fst drawn
  /\ w_entropy (snd res) = snd drawn.
Proof.
  intros drawn res Hzero Hdrawn. subst res. simpl.
  pose proof (select_ident_net n w dst src) as Hn.
  pose proof (select_ident_world n w dst src) as Hw.
  unfold ip_id_key_fill in Hn, Hw. rewrite Hzero in Hn, Hw.
  fold drawn in Hn, Hw. destruct drawn as [bs ent'] eqn:Hd.
  simpl in Hn, Hw, Hdrawn.
  destruct (__ipv6_select_ident n w dst src) as [[id n1] w1].
  simpl in Hn, Hw. subst n1.
  pose proof (select_idents_keep_key calls {| ip_id_key := bs |} w1 Hdrawn)
    as Hk.
  pose proof (select_idents_keep_entropy calls {| ip_id_key := bs |} w1
                Hdrawn) as He.
  destruct (select_idents {| ip_id_key := bs |} w1 calls) as [[ids n2] w2].
  simpl in *. subst n2. split; [ reflexivity | congruence ].
Qed.

(** X15: a sequence of calls yields one identifier per call and none of
    them is 0. *)
Theorem select_idents_all_nonzero (calls : list (in6_addr * in6_addr)) :
  forall (n : net) (w : world),
    length (fst (fst (select_idents n w calls))) = length calls
    /\ Forall (fun id => id <> 0) (fst (fst (select_idents n w calls))).
Proof.
  induction calls as [ | [dst src] calls IH]; intros n w.
  - split; [ reflexivity | constructor ].
  - simpl.
    pose proof (select_ident_id n w dst src) as Hid.
    destruct (__ipv6_select_ident n w dst src) as [[id n1] w1].
    simpl in Hid.
    destruct (IH n1 w1) as [Hlen Hall].
    destruct (select_idents n1 w1 calls) as [[ids n2] w2]. simpl in *.
    split; [ f_equal; exact Hlen | ].
    constructor; [ rewrite Hid; apply ident_nonzero_neq | exact Hall ].
Qed.

End IdentMore.

(** ** More on output finalisation *)

Lemma length_store_at (bs : list byte) :
  forall (pos : nat) (buf : list byte),
    length (store_at pos bs buf) = length buf.
Proof.
  intros pos. induction pos as [ | pos IH]; intros buf.
  - revert buf. induction bs as [ | b bs IHbs]; intros [ | c buf];
      simpl; try reflexivity.
    f_equal. apply IHbs.
  - destruct buf as [ | c buf]; simpl; [ reflexivity | ].
    f_equal. apply IH.
Qed.

Lemma nth_store_at_outside (bs : list byte) (d : byte) :
  forall (pos : nat) (buf : list byte) (i : nat),
    (i < pos)%nat \/ (pos + length bs <= i)%nat ->
    nth i (store_at pos bs buf) d = nth i buf d.
Proof.
  intros pos. induction pos as [ | pos IH]; intros buf i Hi.
  - assert (Hge : (length bs <= i)%nat) by lia. clear Hi.
    revert buf i Hge.
    induction bs as [ | b bs IHbs]; intros [ | c buf] i Hge;
      simpl; try reflexivity.
    destruct i as [ | i]; [ simpl in Hge; lia | ].
    apply IHbs. simpl in Hge. lia.
  - destruct buf as [ | c buf]; simpl; [ reflexivity | ].
    destruct i as [ | i]; [ reflexivity | ].
    apply IH. simpl in Hi. lia.
Qed.

Lemma store_at_idem (bs : list byte) :
  forall (pos : nat) (buf : list byte),
    store_at pos bs (store_at pos bs buf) = store_at pos bs buf.
Proof.
  intros pos. induction pos as [ | pos IH]; intros buf.
  - revert buf. induction bs as [ | b bs IHbs]; intros [ | c buf];
      simpl; try reflexivity.
    f_equal. apply IHbs.
  - destruct buf as [ | c buf]; simpl; [ reflexivity | ].
    f_equal. apply IH.
Qed.

Section FinalizeMore.

Context {K : kernel}.

Lemma local_out_byte (skb : sk_buff) (pos : Z) :
  0 <= skb_network_header skb ->
  0 <= pos ->
  pos < skb_network_header skb + offsetof_payload_len
  \/ skb_network_header skb + offsetof_nexthdr <= pos ->
  buf_byte (local_out_fill skb) pos = buf_byte skb pos.
Proof.
  intros Hnh Hpos Hout.
  unfold buf_byte, local_out_fill. simpl skb_head.
  apply nth_store_at_outside.
  change (length (htons (local_out_len skb))) with 2%nat.
  unfold offsetof_payload_len, offsetof_nexthdr in *. lia.
Qed.

(** X16: what [__ip6_local_out] changes.  The packet handed to the
    netfilter hook has [nhoff] set to the offset of the "next header" field
    and [protocol] set to the IPv6 ethertype 0x86DD in network byte order;
    its buffer has the same length and, when the network header lies in the
    buffer, the same bytes everywhere except the two bytes of the
    payload-length field; data, tail, network header, length and
    [ip6_frag_id] are untouched; the returned value is the verdict of the
    hook on that packet. *)
Theorem local_out_frame (skb : sk_buff) :
  let res := __ip6_local_out skb in
  let skb' := snd res in
  skb_nhoff skb' = offsetof_nexthdr
  /\ skb_protocol skb' = [Byte.x86; Byte.xdd]
  /\ length (skb_head skb') = length (skb_head skb)
  /\ (0 <= skb_network_header skb ->
      forall pos,
        0 <= pos ->
        pos < skb_network_header skb + offsetof_payload_len
        \/ skb_network_header skb + offsetof_payload_len + 2 <= pos ->
        buf_byte skb' pos = buf_byte skb pos)
  /\ (skb_data skb', skb_tail skb', skb_network_header skb', skb_len skb',
      skb_ip6_frag_id skb')
     = (skb_data skb, skb_tail skb, skb_network_header skb, skb_len skb,
        skb_ip6_frag_id skb)
  /\ fst res = nf_hook NFPROTO_IPV6 NF_INET_LOCAL_OUT skb'.
Proof.
  cbv zeta. unfold __ip6_local_out. cbn [fst snd].
  split; [ reflexivity | ]. split; [ vm_compute; reflexivity | ].
  split; [ apply length_store_at | ].
  split; [ | split; reflexivity ].
  intros Hnh pos Hpos Hout. apply (local_out_byte skb pos Hnh Hpos).
  unfold offsetof_payload_len, offsetof_nexthdr in *. lia.
Qed.

(** [ip6_local_out] leaves the packet as [__ip6_local_out] does; it
    returns the result of [dst_output] on that packet when the hook's
    verdict is 1 and the verdict itself otherwise, so it returns 1 only if
    [dst_output] does. *)
Theorem local_out_verdict (skb : sk_buff) :
  let hook := __ip6_local_out skb in
  let res := ip6_local_out skb in
  snd res = snd hook
  /\ (fst hook = 1 -> fst res = dst_output (snd hook))
  /\ (fst hook <> 1 -> fst res = fst hook)
  /\ (fst res = 1 -> dst_output (snd hook) = 1).
Proof.
  cbv zeta. unfold ip6_local_out.
  destruct (__ip6_local_out skb) as [err skb']. cbn [fst snd].
  destruct (Z.eqb_spec err 1) as [-> | Hne]; cbn [fst snd].
  - repeat split; auto. intros H. contradiction.
  - repeat split; auto; intros H; contradiction.
Qed.

(** The walk only looks at the "next header" byte of the base header and
    at bytes behind the base header. *)
Lemma walk_loop_agree (skb skb' : sk_buff) (fuel : nat) :
  CONFIG_IPV6_MIP6 = false ->
  packet_len skb' = packet_len skb ->
  (forall pos, walk_reads pos -> nh_u8 skb' pos = nh_u8 skb pos) ->
  forall st,
    walk_inv st ->
    walk_reads (nexthdr st) ->
    walk_loop fuel skb' st = walk_loop fuel skb st.
Proof.
  intros Hmip Hlen Hbytes.
  induction fuel as [ | fuel IH]; intros st Hinv Hnh; [ reflexivity | ].
  simpl. rewrite Hlen.
  destruct (Z.leb_spec (offset st) (packet_len skb)) as [Hin | ];
    [ | reflexivity ].
  assert (Hoff : 0 <= offset st < IPV6_MAXPLEN)
    by (destruct Hinv as [Hrange _]; unfold sizeof_ipv6hdr in Hrange; lia).
  assert (Hsw : switch_nexthdr skb' st = switch_nexthdr skb st).
  { unfold switch_nexthdr. rewrite Hmip. simpl.
    rewrite (Hbytes (nexthdr st) Hnh). reflexivity. }
  assert (Hopt : ipv6_optlen skb' (offset st) = ipv6_optlen skb (offset st)).
  { unfold ipv6_optlen. rewrite (Hbytes (offset st + 1)); [ reflexivity | ].
    right. destruct Hinv as [Hrange _]. lia. }
  assert (Hb : loop_body skb' st = loop_body skb st).
  { destruct (switch_nexthdr skb st) as [rhdr | off] eqn:Hsw0.
    - rewrite (loop_body_break skb st rhdr Hoff Hsw0).
      rewrite (loop_body_break skb' st rhdr Hoff Hsw).
      rewrite Hlen, Hopt. reflexivity.
    - destruct (loop_body_return skb st off Hsw0) as [_ ->].
      destruct (loop_body_return skb' st off Hsw) as [_ ->].
      reflexivity. }
  rewrite Hb.
  destruct (loop_body skb st) as [e | st1] eqn:Hb1; [ reflexivity | ].
  destruct (walk_inv_step skb st st1 Hinv Hb1) as [Hinv1 _].
  destruct (loop_body_continue skb st st1 Hoff Hb1) as (_ & Hn & _).
  apply (IH st1 Hinv1). right. rewrite Hn. destruct Hinv as [Hrange _]. lia.
Qed.

(** X17: finalisation does not move the insertion point.  In a kernel
    built without the mobility extension, on a packet whose network header
    lies in the buffer, [ip6_find_1stfragopt] gives the same result after
    [__ip6_local_out] as before it. *)
Theorem local_out_keeps_1stfragopt (skb : sk_buff) :
  CONFIG_IPV6_MIP6 = false ->
  0 <= skb_network_header skb ->
  ip6_find_1stfragopt (snd (__ip6_local_out skb)) = ip6_find_1stfragopt skb.
Proof.
  intros Hmip Hnh. unfold __ip6_local_out. cbn [snd].
  unfold ip6_find_1stfragopt, ip6_find_1stfragopt_traced, walk_fuel.
  change (packet_len (local_out_fill skb)) with (packet_len skb).
  rewrite (walk_loop_agree skb (local_out_fill skb) _ Hmip eq_refl);
    [ reflexivity | | apply walk_inv_init | left; reflexivity ].
  intros pos Hread. unfold nh_u8. f_equal.
  change (skb_network_header (local_out_fill skb))
    with (skb_network_header skb).
  apply (local_out_byte skb _ Hnh).
  - destruct Hread as [-> | Hge];
      unfold offsetof_nexthdr, sizeof_ipv6hdr in *; lia.
  - right. destruct Hread as [-> | Hge];
      unfold offsetof_nexthdr, sizeof_ipv6hdr in *; lia.
Qed.

(** X18: finalising twice is finalising once: [__ip6_local_out] applied to
    the packet it has produced leaves that packet as it is. *)
Theorem local_out_idempotent (skb : sk_buff) :
  snd (__ip6_local_out (snd (__ip6_local_out skb)))
  = snd (__ip6_local_out skb).
Proof.
  unfold __ip6_local_out. cbn [snd].
  unfold local_out_fill at 1.
  change (local_out_len (local_out_fill skb)) with (local_out_len skb).
  change (skb_network_header (local_out_fill skb))
    with (skb_network_header skb).
  change (skb_head (local_out_fill skb))
    with (store_at (Z.to_nat (skb_network_header skb + offsetof_payload_len))
            (htons (local_out_len skb)) (skb_head skb)).
  rewrite store_at_idem. reflexivity.
Qed.

End FinalizeMore.

(** ** The further theorems on concrete packets *)

(** Equal buffers up to position [m] give equal loads below [m]. *)
Lemma nh_u8_prefix (skb skb' : sk_buff) (m : nat) (pos : Z) :
  skb_network_header skb' = skb_network_header skb ->
  firstn m (skb_head skb') = firstn m (skb_head skb) ->
  0 <= skb_network_header skb + pos < Z.of_nat m ->
  nh_u8 skb' pos = nh_u8 skb pos.
Proof.
  intros Hnh Hpre Hin. unfold nh_u8, buf_byte. rewrite Hnh. f_equal.
  set (i := Z.to_nat (skb_network_header skb + pos)).
  assert (Hi : (i <? m)%nat = true) by (apply Nat.ltb_lt; subst i; lia).
  pose proof (nth_firstn m (skb_head skb) i Byte.x00) as H1.
  pose proof (nth_firstn m (skb_head skb') i Byte.x00) as H2.
  rewrite Hi in H1, H2. rewrite <- H1, <- H2, Hpre. reflexivity.
Qed.

Lemma short_packet_einval_witness :
  @ip6_find_1stfragopt kernel32 pkt_short = Some (- EINVAL, 6).
Proof.
  apply (proj2 (short_packet_einval (K := kernel32) pkt_short
                  ltac:(by_computation))).
Defined.

Lemma no_ext_header_returns_base_witness :
  @ip6_find_1stfragopt kernel32 pkt_a_to_b = Some (40, 6).
Proof.
  apply (no_ext_header_returns_base (K := kernel32) pkt_a_to_b);
    by_computation.
Defined.

Lemma found_offset_in_packet_witness :
  40 <= 56 <= packet_len pkt_hop_rt_dst /\ 56 < IPV6_MAXPLEN /\ 56 mod 8 = 0.
Proof.
  apply (found_offset_in_packet (K := kernel32) pkt_hop_rt_dst 56 48);
    by_computation.
Defined.

Lemma found_nexthdr_precedes_witness :
  56 = 48 + ipv6_optlen pkt_hop_rt_dst 48
  /\ nh_u8 pkt_hop_rt_dst 48 <> NEXTHDR_ROUTING.
Proof.
  destruct (found_nexthdr_precedes (K := kernel32) pkt_hop_rt_dst 56 48
              ltac:(by_computation) ltac:(by_computation))
    as ([[Hbad _] | (_ & _ & Hend)] & _ & Hty).
  - revert Hbad. by_computation.
  - split; [ exact Hend | exact Hty ].
Defined.

Lemma found_rhdr_exact_witness :
  exists k st0,
    (k < 2)%nat
    /\ @walk_state_after kernel32 k pkt_hop_rt_dst = Some st0
    /\ nh_u8 pkt_hop_rt_dst (nexthdr st0) = NEXTHDR_ROUTING.
Proof.
  apply (proj1 (found_rhdr_exact (K := kernel32) pkt_hop_rt_dst 2
                  {| offset := 56; nexthdr := 48; found_rhdr := true |}
                  ltac:(by_computation))).
  reflexivity.
Defined.

Lemma stop_at_dest_has_routing_witness :
  exists k st0,
    @walk_state_after kernel32 k pkt_rt_hop_dst = Some st0
    /\ offset st0 < 56
    /\ nh_u8 pkt_rt_hop_dst (nexthdr st0) = NEXTHDR_ROUTING.
Proof.
  apply (stop_at_dest_has_routing (K := kernel32) pkt_rt_hop_dst 56 48);
    by_computation.
Defined.

Lemma dest_after_routing_stops_witness :
  @ip6_find_1stfragopt kernel32 pkt_rt_hop_dst = Some (56, 48).
Proof.
  apply (dest_after_routing_stops (K := kernel32) pkt_rt_hop_dst 2
           {| offset := 56; nexthdr := 48; found_rhdr := true |}).
  - by_computation.
  - exists 0%nat, walk_init.
    split; [ lia | split; by_computation ].
  - by_computation.
  - by_computation.
  - left. reflexivity.
Defined.

Lemma routing_dest_hao_walks_on_witness :
  @ip6_find_1stfragopt kernel64_mip6 pkt_rt_dst_hao = Some (72, 48).
Proof.
  apply (routing_dest_hao_walks_on (K := kernel64_mip6) pkt_rt_dst_hao);
    by_computation.
Defined.

Lemma found_depends_on_prefix_witness :
  @ip6_find_1stfragopt kernel32 pkt_hop_rt_dst_longer = Some (56, 48).
Proof.
  apply (found_depends_on_prefix (K := kernel32) pkt_hop_rt_dst
           pkt_hop_rt_dst_longer 56 48); try by_computation.
  intros pos Hpos.
  apply (nh_u8_prefix pkt_hop_rt_dst pkt_hop_rt_dst_longer 56 pos);
    [ reflexivity | reflexivity | ].
  change (skb_network_header pkt_hop_rt_dst) with 0. lia.
Defined.

Lemma find_1stfragopt_same_captured_witness :
  @ip6_find_1stfragopt kernel32 pkt_truncated
  = @ip6_find_1stfragopt kernel32 pkt_truncated_dirty.
Proof.
  apply (find_1stfragopt_same_captured (K := kernel32) pkt_truncated
           pkt_truncated_dirty eq_refl).
  apply same_captured_prefix; by_computation.
Defined.

Lemma select_ident_on_wire_witness :
  ntoh (identification
          (snd (@ipv6_select_ident kernel32 net_keyed world32_used
                  fhdr_blank rt_a_to_b))) = 7.
Proof.
  destruct (select_ident_on_wire (K := kernel32) net_keyed world32_used
              fhdr_blank rt_a_to_b ltac:(split; by_computation))
    as (Hid & _).
  rewrite Hid. by_computation.
Defined.

Lemma pkt_a_to_b_captured : proxy_addrs_captured pkt_a_to_b.
Proof. repeat split; by_computation. Qed.

Lemma proxy_select_ident_captured_witness :
  skb_ip6_frag_id
    (snd (@ipv6_proxy_select_ident kernel32 net_keyed world32_used
            pkt_a_to_b))
  = [Byte.x00; Byte.x00; Byte.x00; Byte.x07].
Proof.
  rewrite (proxy_select_ident_captured (K := kernel32) net_keyed
             world32_used pkt_a_to_b pkt_a_to_b_captured).
  by_computation.
Defined.

Lemma proxy_and_routed_agree_witness :
  skb_ip6_frag_id
    (snd (@ipv6_proxy_select_ident kernel32 net_keyed world32_used
            pkt_a_to_b))
  = identification
      (snd (@ipv6_select_ident kernel32 net_keyed world32_used
              fhdr_blank rt_a_to_b)).
Proof.
  apply (proj1 (proxy_and_routed_agree (K := kernel32) net_keyed
                  world32_used pkt_a_to_b fhdr_blank rt_a_to_b
                  pkt_a_to_b_captured eq_refl eq_refl)).
Defined.

Lemma seed_drawn_once_witness :
  ip_id_key (snd (fst (@select_idents kernel32 net_unset world32
                         [(addr_a, addr_b); (addr_b, addr_a)])))
  = repeat Byte.x5a 16.
Proof.
  apply (proj1 (seed_drawn_once (K := kernel32) net_unset world32
                  addr_a addr_b [(addr_b, addr_a)]
                  ltac:(by_computation) ltac:(by_computation))).
Defined.

Lemma local_out_frame_witness :
  buf_byte (snd (@__ip6_local_out kernel32 pkt_hop_rt_dst)) 6
  = buf_byte pkt_hop_rt_dst 6.
Proof.
  destruct (local_out_frame (K := kernel32) pkt_hop_rt_dst)
    as (_ & _ & _ & Hbytes & _).
  apply Hbytes; try by_computation.
  right. by_computation.
Defined.

Lemma local_out_verdict_witness :
  fst (@ip6_local_out kernel32 pkt_hop_rt_dst) = 0.
Proof.
  destruct (local_out_verdict (K := kernel32) pkt_hop_rt_dst)
    as (_ & Hone & _).
  rewrite Hone; by_computation.
Defined.

Lemma local_out_keeps_1stfragopt_witness :
  @ip6_find_1stfragopt kernel32
    (snd (@__ip6_local_out kernel32 pkt_hop_rt_dst))
  = Some (56, 48).
Proof.
  rewrite (local_out_keeps_1stfragopt (K := kernel32) pkt_hop_rt_dst
             eq_refl ltac:(by_computation)).
  by_computation.
Defined.
